(** * Seeding route of the dashboard application: [app/seed/route.ts]

    The route handler [GET] opens a transaction on one PostgreSQL
    connection, creates four tables when they are absent, inserts the
    placeholder rows and commits; on any exception it issues [ROLLBACK]
    and answers with status 500.

    The development embeds the handler as a function over an explicit
    world: the database behind the connection, the connection itself, the
    sequence of statements handed to [client.sql], and the continuations
    of the event loop that are still pending when the handler returns. *)

From Stdlib Require Import List String Ascii ZArith Lia Bool Arith PeanoNat.
From Stdlib Require Import FinFun.
Import ListNotations.

(** ** Placeholder data ([../lib/placeholder-data])

    Identifiers and dates are the literals of the fixture; they are taken
    to be well-formed for their column types and written in one
    spelling. *)

Module User.
Record t :=
  { id : string; name : string; email : string; password : string }.
End User.

Module Customer.
Record t :=
  { id : string; name : string; email : string; image_url : string }.
End Customer.

Module Invoice.
Record t :=
  { customer_id : string; amount : Z; status : string; date : string }.
End Invoice.

Module Revenue.
Record t := { month : string; revenue : Z }.
End Revenue.

(** ** The database *)

(** A value of a [UUID] column: either the literal a statement supplied or
    a value drawn by [uuid_generate_v4()].  Drawn values are numbered by
    the draw; two draws never agree and no draw agrees with a literal. *)
Inductive uuid :=
| Supplied (text : string)
| Generated (serial : nat).

Definition uuid_eqb (a b : uuid) : bool :=
  match a, b with
  | Supplied s, Supplied t => String.eqb s t
  | Generated m, Generated n => Nat.eqb m n
  | _, _ => false
  end.

Record user_row :=
  { u_id : uuid; u_name : string; u_email : string; u_password : string }.
Record customer_row :=
  { c_id : uuid; c_name : string; c_email : string; c_image_url : string }.
Record invoice_row :=
  { i_id : uuid; i_customer_id : uuid; i_amount : Z;
    i_status : string; i_date : string }.
Record revenue_row := { r_month : string; r_revenue : Z }.

(** A table is [None] until it is created. *)
Record database :=
  { uuid_ossp : bool;
    users_tbl : option (list user_row);
    customers_tbl : option (list customer_row);
    invoices_tbl : option (list invoice_row);
    revenue_tbl : option (list revenue_row) }.

Definition empty_database : database :=
  {| uuid_ossp := false; users_tbl := None; customers_tbl := None;
     invoices_tbl := None; revenue_tbl := None |}.

Definition set_users (d : database) (t : list user_row) : database :=
  {| uuid_ossp := uuid_ossp d; users_tbl := Some t;
     customers_tbl := customers_tbl d; invoices_tbl := invoices_tbl d;
     revenue_tbl := revenue_tbl d |}.
Definition set_customers (d : database) (t : list customer_row) : database :=
  {| uuid_ossp := uuid_ossp d; users_tbl := users_tbl d;
     customers_tbl := Some t; invoices_tbl := invoices_tbl d;
     revenue_tbl := revenue_tbl d |}.
Definition set_invoices (d : database) (t : list invoice_row) : database :=
  {| uuid_ossp := uuid_ossp d; users_tbl := users_tbl d;
     customers_tbl := customers_tbl d; invoices_tbl := Some t;
     revenue_tbl := revenue_tbl d |}.
Definition set_revenue (d : database) (t : list revenue_row) : database :=
  {| uuid_ossp := uuid_ossp d; users_tbl := users_tbl d;
     customers_tbl := customers_tbl d; invoices_tbl := invoices_tbl d;
     revenue_tbl := Some t |}.
Definition set_extension (d : database) : database :=
  {| uuid_ossp := true; users_tbl := users_tbl d;
     customers_tbl := customers_tbl d; invoices_tbl := invoices_tbl d;
     revenue_tbl := revenue_tbl d |}.

(** ** Statements of the route, one constructor per SQL text *)

Inductive statement :=
| BEGIN
| COMMIT
| ROLLBACK
| CREATE_EXTENSION_uuid_ossp
| CREATE_TABLE_users
| CREATE_TABLE_invoices
| CREATE_TABLE_customers
| CREATE_TABLE_revenue
| INSERT_users (id name email password : string)
| INSERT_invoices (customer_id : string) (amount : Z) (status date : string)
| INSERT_customers (id name email image_url : string)
| INSERT_revenue (month : string) (revenue : Z).

Inductive pg_error :=
| unique_violation (constraint : string)
| string_data_right_truncation
| numeric_value_out_of_range
| undefined_table
| in_failed_sql_transaction.

(** Assignment to a [VARCHAR(n)] column: a longer value is an error unless
    the excess is all spaces, which are cut off. *)
Definition blank (s : string) : bool :=
  forallb (Ascii.eqb " "%char) (list_ascii_of_string s).

Definition varchar (n : nat) (s : string) : option string :=
  if (String.length s <=? n)%nat then Some s
  else if blank (substring n (String.length s - n) s)
       then Some (substring 0 n s)
       else None.

(** Assignment to an [INT] column. *)
Definition int4 (z : Z) : option Z :=
  if ((-2147483648 <=? z) && (z <=? 2147483647))%Z then Some z else None.

Definition has_user_id (k : uuid) (t : list user_row) : bool :=
  existsb (fun r => uuid_eqb (u_id r) k) t.
Definition has_user_email (e : string) (t : list user_row) : bool :=
  existsb (fun r => String.eqb (u_email r) e) t.
Definition has_customer_id (k : uuid) (t : list customer_row) : bool :=
  existsb (fun r => uuid_eqb (c_id r) k) t.
Definition has_invoice_id (k : uuid) (t : list invoice_row) : bool :=
  existsb (fun r => uuid_eqb (i_id r) k) t.
Definition has_month (m : string) (t : list revenue_row) : bool :=
  existsb (fun r => String.eqb (r_month r) m) t.

(** [execute q d g] runs a schema or data statement on database [d] with
    [g] values drawn so far by [uuid_generate_v4()].  A value that does not
    fit its column is refused before the conflict target is looked at, an
    integer (refused when the statement is bound) before a string;
    [ON CONFLICT (k) DO NOTHING] then skips the row when [k] is taken, and
    the remaining unique constraint of [users] is enforced last.  The
    literals of [UUID] and [DATE] columns are not parsed: they are taken
    as they are spelled. *)
Definition execute (q : statement) (d : database) (g : nat)
  : (pg_error + database) * nat :=
  match q with
  | BEGIN | COMMIT | ROLLBACK => (inr d, g)
  | CREATE_EXTENSION_uuid_ossp => (inr (set_extension d), g)
  | CREATE_TABLE_users =>
      (inr (match users_tbl d with Some _ => d | None => set_users d [] end), g)
  | CREATE_TABLE_invoices =>
      (inr (match invoices_tbl d with Some _ => d | None => set_invoices d [] end), g)
  | CREATE_TABLE_customers =>
      (inr (match customers_tbl d with Some _ => d | None => set_customers d [] end), g)
  | CREATE_TABLE_revenue =>
      (inr (match revenue_tbl d with Some _ => d | None => set_revenue d [] end), g)
  | INSERT_users id name email password =>
      match users_tbl d with
      | None => (inl undefined_table, g)
      | Some t =>
          match varchar 255 name with
          | None => (inl string_data_right_truncation, g)
          | Some name' =>
              if has_user_id (Supplied id) t then (inr d, g)
              else if has_user_email email t
                   then (inl (unique_violation "users_email_key"%string), g)
                   else (inr (set_users d
                                (t ++ [ {| u_id := Supplied id; u_name := name';
                                           u_email := email;
                                           u_password := password |} ])), g)
          end
      end
  | INSERT_invoices customer_id amount status date =>
      match invoices_tbl d with
      | None => (inl undefined_table, g)
      | Some t =>
          match int4 amount, varchar 255 status with
          | None, _ => (inl numeric_value_out_of_range, g)
          | _, None => (inl string_data_right_truncation, g)
          | Some amount', Some status' =>
              if has_invoice_id (Generated g) t then (inr d, S g)
              else (inr (set_invoices d
                           (t ++ [ {| i_id := Generated g;
                                      i_customer_id := Supplied customer_id;
                                      i_amount := amount';
                                      i_status := status';
                                      i_date := date |} ])), S g)
          end
      end
  | INSERT_customers id name email image_url =>
      match customers_tbl d with
      | None => (inl undefined_table, g)
      | Some t =>
          match varchar 255 name, varchar 255 email, varchar 255 image_url with
          | Some name', Some email', Some image_url' =>
              if has_customer_id (Supplied id) t then (inr d, g)
              else (inr (set_customers d
                           (t ++ [ {| c_id := Supplied id; c_name := name';
                                      c_email := email';
                                      c_image_url := image_url' |} ])), g)
          | _, _, _ => (inl string_data_right_truncation, g)
          end
      end
  | INSERT_revenue month revenue =>
      match revenue_tbl d with
      | None => (inl undefined_table, g)
      | Some t =>
          match int4 revenue, varchar 4 month with
          | None, _ => (inl numeric_value_out_of_range, g)
          | _, None => (inl string_data_right_truncation, g)
          | Some revenue', Some month' =>
              if has_month month' t then (inr d, g)
              else (inr (set_revenue d
                           (t ++ [ {| r_month := month';
                                      r_revenue := revenue' |} ])), g)
          end
      end
  end.

(** ** The session behind [client] *)

(** Transaction status of the session; [saved] is the database as it was
    when the transaction began. *)
Inductive session :=
| Idle
| InTransaction (saved : database)
| Aborted (saved : database).

Record backend := { data : database; tx : session; drawn : nat }.

(** The database once the open transaction, if any, is discarded. *)
Definition discard (b : backend) : backend :=
  match tx b with
  | Idle => b
  | InTransaction saved | Aborted saved =>
      {| data := saved; tx := Idle; drawn := drawn b |}
  end.

(** One statement arriving at the server. *)
Definition serve (q : statement) (b : backend) : (pg_error + unit) * backend :=
  match tx b, q with
  | Idle, BEGIN =>
      (inr tt, {| data := data b; tx := InTransaction (data b); drawn := drawn b |})
  | Idle, (COMMIT | ROLLBACK) => (inr tt, b)
  | Idle, _ =>
      match execute q (data b) (drawn b) with
      | (inr d, g) => (inr tt, {| data := d; tx := Idle; drawn := g |})
      | (inl e, g) => (inl e, {| data := data b; tx := Idle; drawn := g |})
      end
  | InTransaction saved, BEGIN => (inr tt, b)
  | InTransaction saved, COMMIT =>
      (inr tt, {| data := data b; tx := Idle; drawn := drawn b |})
  | InTransaction saved, ROLLBACK => (inr tt, discard b)
  | InTransaction saved, _ =>
      match execute q (data b) (drawn b) with
      | (inr d, g) => (inr tt, {| data := d; tx := InTransaction saved; drawn := g |})
      | (inl e, g) => (inl e, {| data := data b; tx := Aborted saved; drawn := g |})
      end
  | Aborted saved, (COMMIT | ROLLBACK) => (inr tt, discard b)
  | Aborted saved, _ => (inl in_failed_sql_transaction, b)
  end.

(** ** The client side *)

Inductive error :=
| Postgres (e : pg_error)
| ConnectionLost
| BcryptError.

(** [ttl]: how many more statements the connection carries ([None]: it
    never breaks).  [wire]: every statement handed to [client.sql], oldest
    first.  [late]: statements that pending continuations will still
    issue. *)
Record world :=
  { pg : backend; ttl : option nat; wire : list statement;
    late : list statement }.

Inductive result (A : Type) :=
| Ok (a : A)
| Throw (e : error).
Arguments Ok {A} a.
Arguments Throw {A} e.

Definition M (A : Type) : Type := world -> result A * world.

Definition ret {A} (a : A) : M A := fun w => (Ok a, w).

Definition bind {A B} (m : M A) (f : A -> M B) : M B :=
  fun w => match m w with
           | (Ok a, w') => f a w'
           | (Throw e, w') => (Throw e, w')
           end.

Notation "m ;; k" := (bind m (fun _ => k))
  (at level 61, right associativity).

(** [client.sql`...`]: the statement goes onto the wire; a broken
    connection rejects it and the server discards the open transaction.
    The connection breaks between statements: a statement that is served
    while its answer is lost has no counterpart here. *)
Definition sql (q : statement) : M unit :=
  fun w =>
    match ttl w with
    | Some 0 =>
        (Throw ConnectionLost,
         {| pg := discard (pg w); ttl := Some 0; wire := wire w ++ [q];
            late := late w |})
    | t =>
        let (r, b) := serve q (pg w) in
        (match r with inr _ => Ok tt | inl e => Throw (Postgres e) end,
         {| pg := b; ttl := option_map pred t; wire := wire w ++ [q];
            late := late w |})
    end.

(** [Promise.all] over queries that were all issued before the first
    answer came back: every statement is sent, the first rejection is the
    outcome. *)
Fixpoint Promise_all (qs : list statement) : M unit :=
  match qs with
  | [] => ret tt
  | q :: rest =>
      fun w =>
        let (r, w1) := sql q w in
        let (r', w2) := Promise_all rest w1 in
        (match r with Ok _ => r' | Throw e => Throw e end, w2)
  end.


(** ** The seeding functions *)

(** What the route imports: [bcrypt.hash(data, rounds)] together with the
    salt it draws ([None] when the promise rejects), and the four arrays
    of [../lib/placeholder-data]. *)
Record imports :=
  { bcrypt_hash : string -> nat -> nat -> option string;
    users : list User.t;
    customers : list Customer.t;
    invoices : list Invoice.t;
    revenue : list Revenue.t }.

(** What is left to chance in one run of the handler: the salt
    [bcrypt.hash] draws for the [i]-th user, the moment [finish i] at which
    that hash settles, and [lag], the number of further hashes that settle
    while the rejection of an [INSERT] is on its way back to the client. *)
Record chance :=
  { salt : nat -> nat; finish : nat -> nat; lag : nat }.

(** Insertion of a job into a list ordered by settling time; jobs that
    settle at the same moment keep the order of the fixture. *)
Fixpoint enqueue {A} (k : nat) (a : A) (l : list (nat * A)) : list (nat * A) :=
  match l with
  | [] => [(k, a)]
  | (k', a') :: rest =>
      if (k' <=? k)%nat then (k', a') :: enqueue k a rest else (k, a) :: l
  end.

Definition by_finish {A} (l : list (nat * A)) : list (nat * A) :=
  fold_left (fun acc ka => enqueue (fst ka) (snd ka) acc) l [].

(** State of the [Promise.all] over the user closures: no rejection yet, or
    the rejection [e] of a query that reaches the client after [slack]
    more hashes have settled. *)
Inductive alarm :=
| Quiet
| Ringing (e : error) (slack : nat).

(** The statements the jobs that have not settled yet will still issue. *)
Definition stragglers (jobs : list (option statement)) : list statement :=
  flat_map (fun j => match j with Some q => [q] | None => [] end) jobs.

Definition defer (qs : list statement) (w : world) : world :=
  {| pg := pg w; ttl := ttl w; wire := wire w; late := late w ++ qs |}.

(** [Promise.all] over closures that first await something and then issue
    one query each.  [jobs] lists, in settling order, what each awaited
    value leads to: [None] when the await rejects, [Some q] when the
    closure goes on to issue [q].  The first rejection that reaches the
    client ends the wait; closures that have not settled by then stay
    pending. *)
Fixpoint Promise_all_settling (slack : nat) (jobs : list (option statement))
  (a : alarm) : M unit :=
  match jobs with
  | [] => match a with
          | Quiet => ret tt
          | Ringing e _ => fun w => (Throw e, w)
          end
  | j :: rest =>
      match a, j with
      | Ringing e 0, _ => fun w => (Throw e, defer (stragglers jobs) w)
      | _, None => fun w => (Throw BcryptError, defer (stragglers rest) w)
      | Quiet, Some q =>
          fun w =>
            match sql q w with
            | (Ok _, w1) => Promise_all_settling slack rest Quiet w1
            | (Throw e, w1) => Promise_all_settling slack rest (Ringing e slack) w1
            end
      | Ringing e (S k), Some q =>
          fun w => Promise_all_settling slack rest (Ringing e k) (snd (sql q w))
      end
  end.

(** The closure of [seedUsers] for the [i]-th user, past its [await]. *)
Definition hashed (m : imports) (c : chance) (i : nat) (user : User.t)
  : option statement :=
  match bcrypt_hash m (User.password user) 10 (salt c i) with
  | Some hashedPassword =>
      Some (INSERT_users (User.id user) (User.name user) (User.email user)
              hashedPassword)
  | None => None
  end.

Definition user_jobs (m : imports) (c : chance) : list (option statement) :=
  map snd
    (by_finish
       (map (fun iu => (finish c (fst iu), hashed m c (fst iu) (snd iu)))
          (combine (seq 0 (List.length (users m))) (users m)))).

Definition seedUsers (m : imports) (c : chance) : M unit :=
  sql CREATE_EXTENSION_uuid_ossp ;;
  sql CREATE_TABLE_users ;;
  Promise_all_settling (lag c) (user_jobs m c) Quiet.

Definition invoice_inserts (m : imports) : list statement :=
  map (fun invoice =>
         INSERT_invoices (Invoice.customer_id invoice) (Invoice.amount invoice)
           (Invoice.status invoice) (Invoice.date invoice))
    (invoices m).

Definition seedInvoices (m : imports) : M unit :=
  sql CREATE_EXTENSION_uuid_ossp ;;
  sql CREATE_TABLE_invoices ;;
  Promise_all (invoice_inserts m).

Definition customer_inserts (m : imports) : list statement :=
  map (fun customer =>
         INSERT_customers (Customer.id customer) (Customer.name customer)
           (Customer.email customer) (Customer.image_url customer))
    (customers m).

Definition seedCustomers (m : imports) : M unit :=
  sql CREATE_EXTENSION_uuid_ossp ;;
  sql CREATE_TABLE_customers ;;
  Promise_all (customer_inserts m).

Definition revenue_inserts (m : imports) : list statement :=
  map (fun rev => INSERT_revenue (Revenue.month rev) (Revenue.revenue rev))
    (revenue m).

Definition seedRevenue (m : imports) : M unit :=
  sql CREATE_TABLE_revenue ;;
  Promise_all (revenue_inserts m).

Inductive response :=
| Json_message (message : string)
| Json_error (e : error).

(** What a call of the handler comes to: a response with its status, or an
    exception that leaves the handler. *)
Inductive outcome :=
| Returned (body : response) (status : nat)
| Raised (e : error).

(** The [try] block of the handler. *)
Definition seeding (m : imports) (c : chance) : M unit :=
  sql BEGIN ;;
  seedUsers m c ;;
  seedCustomers m ;;
  seedInvoices m ;;
  seedRevenue m ;;
  sql COMMIT.

Definition GET (m : imports) (c : chance) (w : world) : outcome * world :=
  match seeding m c w with
  | (Ok _, w1) =>
      (Returned (Json_message "Database seeded successfully"%string) 200, w1)
  | (Throw error, w1) =>
      match sql ROLLBACK w1 with
      | (Ok _, w2) => (Returned (Json_error error) 500, w2)
      | (Throw e, w2) => (Raised e, w2)
      end
  end.

(** The pending continuations run: each issues its statement; nobody
    awaits the answers.  They run here once the handler has returned; a
    closure that settles while the handler still awaits the answer of
    [ROLLBACK] has its statement served after [ROLLBACK] all the same. *)
Fixpoint flush (qs : list statement) (w : world) : world :=
  match qs with
  | [] => w
  | q :: rest => flush rest (snd (sql q w))
  end.

Definition settle (w : world) : world :=
  flush (late w)
    {| pg := pg w; ttl := ttl w; wire := wire w; late := [] |}.

(** A call of the handler followed by everything it left pending. *)
Definition run (m : imports) (c : chance) (w : world) : outcome * world :=
  let (o, w') := GET m c w in (o, settle w').

(** ** Notions used to state the properties *)

(** The statements [qs] served one after the other, all accepted. *)
Fixpoint serve_all (qs : list statement) (b : backend) : option backend :=
  match qs with
  | [] => Some b
  | q :: rest =>
      match serve q b with
      | (inr _, b') => serve_all rest b'
      | (inl _, _) => None
      end
  end.

(** Schema and data statements served one after the other outside any
    session, all accepted. *)
Fixpoint exec_all (qs : list statement) (d : database) (g : nat)
  : option (database * nat) :=
  match qs with
  | [] => Some (d, g)
  | q :: rest =>
      match execute q d g with
      | (inr d', g') => exec_all rest d' g'
      | (inl _, _) => None
      end
  end.

Definition control (q : statement) : bool :=
  match q with
  | BEGIN | COMMIT | ROLLBACK => true
  | _ => false
  end.

(** The statements of a call of the handler in which nothing rejects. *)
Definition users_script (m : imports) (c : chance) : list statement :=
  [CREATE_EXTENSION_uuid_ossp; CREATE_TABLE_users]
  ++ stragglers (user_jobs m c).
Definition customers_script (m : imports) : list statement :=
  [CREATE_EXTENSION_uuid_ossp; CREATE_TABLE_customers] ++ customer_inserts m.
Definition invoices_script (m : imports) : list statement :=
  [CREATE_EXTENSION_uuid_ossp; CREATE_TABLE_invoices] ++ invoice_inserts m.
Definition revenue_script (m : imports) : list statement :=
  [CREATE_TABLE_revenue] ++ revenue_inserts m.

Definition body (m : imports) (c : chance) : list statement :=
  users_script m c ++ customers_script m ++ invoices_script m
  ++ revenue_script m.

Definition script (m : imports) (c : chance) : list statement :=
  [BEGIN] ++ body m c ++ [COMMIT].

(** The rows of a table; a table that does not exist has none. *)
Definition rows {R} (t : option (list R)) : list R :=
  match t with
  | Some l => l
  | None => []
  end.

(** The row an [INSERT] stores when it is not skipped. *)
Definition user_row_of (q : statement) (r : user_row) : Prop :=
  match q with
  | INSERT_users id name email password =>
      u_id r = Supplied id /\ varchar 255 name = Some (u_name r) /\
      u_email r = email /\ u_password r = password
  | _ => False
  end.

Definition customer_row_of (q : statement) (r : customer_row) : Prop :=
  match q with
  | INSERT_customers id name email image_url =>
      c_id r = Supplied id /\ varchar 255 name = Some (c_name r) /\
      varchar 255 email = Some (c_email r) /\
      varchar 255 image_url = Some (c_image_url r)
  | _ => False
  end.

Definition invoice_row_of (q : statement) (r : invoice_row) : Prop :=
  match q with
  | INSERT_invoices customer_id amount status date =>
      i_customer_id r = Supplied customer_id /\ i_amount r = amount /\
      varchar 255 status = Some (i_status r) /\ i_date r = date
  | _ => False
  end.

Definition revenue_row_of (q : statement) (r : revenue_row) : Prop :=
  match q with
  | INSERT_revenue month revenue =>
      varchar 4 month = Some (r_month r) /\ r_revenue r = revenue
  | _ => False
  end.

(** The seeding step a statement belongs to: 0 users, 1 customers,
    2 invoices, 3 revenue; transaction control and [CREATE EXTENSION]
    belong to none. *)
Definition step_of (q : statement) : option nat :=
  match q with
  | CREATE_TABLE_users | INSERT_users _ _ _ _ => Some 0
  | CREATE_TABLE_customers | INSERT_customers _ _ _ _ => Some 1
  | CREATE_TABLE_invoices | INSERT_invoices _ _ _ _ => Some 2
  | CREATE_TABLE_revenue | INSERT_revenue _ _ => Some 3
  | _ => None
  end.

(** [plays m l]: whenever [m] completes, it has handed exactly the
    statements [l] to the server, which accepted them all, and has left
    nothing pending. *)
Definition plays (p : M unit) (l : list statement) : Prop :=
  forall w u w', p w = (Ok u, w') ->
    serve_all l (pg w) = Some (pg w') /\ wire w' = wire w ++ l /\
    late w' = late w.

(** A database nothing has been created in, behind an idle session, with
    no continuation pending. *)
Definition pristine (w : world) : Prop :=
  data (pg w) = empty_database /\ tx (pg w) = Idle /\ late w = [].

(** ** Sample inputs

    The end-to-end scenario of the specification: one record per table. *)

Definition sample_hash (data : string) (rounds salt : nat) : option string :=
  Some ("$2b$10$" ++ data)%string.

Definition sample_compare (data encrypted : string) : bool :=
  String.eqb encrypted ("$2b$10$" ++ data)%string.

Definition sample : imports :=
  {| bcrypt_hash := sample_hash;
     users := [ {| User.id := "u1"; User.name := "Amy";
                   User.email := "amy@x.com";
                   User.password := "secret" |} ]%string;
     customers := [ {| Customer.id := "c1"; Customer.name := "Acme";
                       Customer.email := "a@acme.com";
                       Customer.image_url := "/img.png" |} ]%string;
     invoices := [ {| Invoice.customer_id := "c1"; Invoice.amount := 500;
                      Invoice.status := "paid";
                      Invoice.date := "2024-01-01" |} ]%string;
     revenue := [ {| Revenue.month := "Jan1";
                     Revenue.revenue := 1000 |} ]%string |}.

(** Hashes settle in fixture order and a rejected query is known to the
    client before the next hash settles. *)
Definition prompt : chance :=
  {| salt := fun i => i; finish := fun i => i; lag := 0 |}.

Definition world_of (d : database) (t : option nat) : world :=
  {| pg := {| data := d; tx := Idle; drawn := 0 |};
     ttl := t; wire := []; late := [] |}.

(** An empty database behind a sound connection. *)
Definition blank_world : world := world_of empty_database None.

(** An empty database behind a connection that breaks after three
    statements. *)
Definition brittle_world : world := world_of empty_database (Some 3).

(** The database once [sample] has been seeded. *)
Definition seeded_world : world := snd (run sample prompt blank_world).

(** The conflict key an [INSERT] is filed under. *)
Definition user_key (q : statement) : option uuid :=
  match q with
  | INSERT_users id _ _ _ => Some (Supplied id)
  | _ => None
  end.

Definition customer_key (q : statement) : option uuid :=
  match q with
  | INSERT_customers id _ _ _ => Some (Supplied id)
  | _ => None
  end.

Definition revenue_key (q : statement) : option string :=
  match q with
  | INSERT_revenue month _ => varchar 4 month
  | _ => None
  end.

Definition inserts_invoice (q : statement) : bool :=
  match q with
  | INSERT_invoices _ _ _ _ => true
  | _ => false
  end.

(** Every id of the table was drawn before the [g]-th draw. *)
Definition ids_below (g : nat) (t : list invoice_row) : Prop :=
  forall r, In r t -> exists k, i_id r = Generated k /\ k < g.

(** What an accepted statement does to a table with a conflict key: it
    leaves the rows alone or appends one row under a key that was free; the
    key of an [INSERT] is taken afterwards; a table that exists stays. *)
Definition keyed_step {R K} (tbl : database -> option (list R)) (key : R -> K)
  (row_of : statement -> R -> Prop) (key_of : statement -> option K)
  (create : statement) : Prop :=
  forall q d g d' g',
    execute q d g = (inr d', g') ->
    (rows (tbl d') = rows (tbl d) \/
     exists r, rows (tbl d') = rows (tbl d) ++ [r] /\ row_of q r /\
               ~ In (key r) (map key (rows (tbl d)))) /\
    (forall k, key_of q = Some k -> In k (map key (rows (tbl d')))) /\
    (tbl d <> None \/ q = create -> tbl d' <> None).

(** The columns of an invoice row the fixture supplies. *)
Definition invoice_fields (r : invoice_row) : uuid * Z * string * string :=
  (i_customer_id r, i_amount r, i_status r, i_date r).

(** [keeps W p]: running [p] preserves [W]. *)
Definition keeps (W : world -> Prop) {A} (p : M A) : Prop :=
  forall w, W w -> W (snd (p w)).

(** [P] holds of the database and of the database a rollback would
    restore. *)
Definition everywhere (P : database -> Prop) (b : backend) : Prop :=
  P (data b) /\
  match tx b with
  | Idle => True
  | InTransaction saved | Aborted saved => P saved
  end.

(** The statements a call can hand to the connection. *)
Definition issuable (m : imports) (c : chance) (q : statement) : Prop :=
  control q = true \/ In q (body m c).

(** [climbs lo l hi]: the steps of the statements of [l] never decrease
    and lie between [lo] and [hi]. *)
Fixpoint climbs (lo : nat) (l : list statement) (hi : nat) : Prop :=
  match l with
  | [] => lo <= hi
  | q :: rest =>
      match step_of q with
      | None => climbs lo rest hi
      | Some s => lo <= s /\ climbs s rest hi
      end
  end.

(** [paced lo hi p]: what [p] issues, followed by what it leaves pending,
    climbs from [lo] to [hi]; it leaves nothing pending when it
    completes. *)
Definition paced (lo hi : nat) {A} (p : M A) : Prop :=
  forall w, exists l l',
    wire (snd (p w)) = wire w ++ l /\
    late (snd (p w)) = late w ++ l' /\
    climbs lo (l ++ l') hi /\
    (forall a, fst (p w) = Ok a -> l' = []).

(** [shields W p]: when [p] throws from a world where [W] holds, [W]
    holds of the world it throws in. *)
Definition shields (W : world -> Prop) {A} (p : M A) : Prop :=
  forall w e w', W w -> p w = (Throw e, w') -> W w'.

(** Inside the transaction begun on database [d0]: the session can still
    fall back to [d0], or the connection broke and the server already
    did. *)
Definition revertible (d0 : database) (w : world) : Prop :=
  tx (pg w) = InTransaction d0 \/ tx (pg w) = Aborted d0 \/
  (tx (pg w) = Idle /\ data (pg w) = d0 /\ ttl w = Some 0).

(** The fixture of a second deployment: its first user has the e-mail
    address of the user [sample] seeded, under another id. *)
Definition rival : imports :=
  {| bcrypt_hash := sample_hash;
     users := [ {| User.id := "u2"; User.name := "Amy";
                   User.email := "amy@x.com";
                   User.password := "secret" |};
                {| User.id := "u3"; User.name := "Bob";
                   User.email := "bob@x.com";
                   User.password := "hunter2" |} ]%string;
     customers := customers sample;
     invoices := invoices sample;
     revenue := revenue sample |}.



(** The database after [sample] has been seeded twice. *)
Definition reseeded_world : world := snd (run sample prompt seeded_world).

(** [extends d0 d]: every table of [d0] exists in [d] with the rows of
    [d0], in their order, followed by further rows; the extension stays
    installed. *)
Definition extends (d0 d : database) : Prop :=
  (exists e, rows (users_tbl d) = rows (users_tbl d0) ++ e) /\
  (exists e, rows (customers_tbl d) = rows (customers_tbl d0) ++ e) /\
  (exists e, rows (invoices_tbl d) = rows (invoices_tbl d0) ++ e) /\
  (exists e, rows (revenue_tbl d) = rows (revenue_tbl d0) ++ e) /\
  (users_tbl d0 <> None -> users_tbl d <> None) /\
  (customers_tbl d0 <> None -> customers_tbl d <> None) /\
  (invoices_tbl d0 <> None -> invoices_tbl d <> None) /\
  (revenue_tbl d0 <> None -> revenue_tbl d <> None) /\
  (uuid_ossp d0 = true -> uuid_ossp d = true).

(** The keys the schema declares unique are so. *)
Definition unique_keys (d : database) : Prop :=
  NoDup (map u_id (rows (users_tbl d))) /\
  NoDup (map u_email (rows (users_tbl d))) /\
  NoDup (map c_id (rows (customers_tbl d))) /\
  NoDup (map i_id (rows (invoices_tbl d))) /\
  NoDup (map r_month (rows (revenue_tbl d))).

(** A [UUID] literal in the spelling the server prints: 36 characters,
    hyphens after 8, 12, 16 and 20 lower-case hexadecimal digits. *)
Definition hex_lower (a : ascii) : bool :=
  let n := nat_of_ascii a in
  ((48 <=? n) && (n <=? 57)) || ((97 <=? n) && (n <=? 102)).

Fixpoint uuid_shape (i : nat) (l : list ascii) : bool :=
  match l with
  | [] => i =? 36
  | a :: rest =>
      (if (i =? 8) || (i =? 13) || (i =? 18) || (i =? 23)
       then Ascii.eqb a "-"%char
       else hex_lower a)
      && uuid_shape (S i) rest
  end.

Definition canonical_uuid (s : string) : bool :=
  uuid_shape 0 (list_ascii_of_string s).

(** A [DATE] literal [YYYY-MM-DD] of the Gregorian calendar, from year 1
    on. *)
Definition digit (a : ascii) : option nat :=
  let n := nat_of_ascii a in
  if (48 <=? n) && (n <=? 57) then Some (n - 48) else None.

Definition leap (y : nat) : bool :=
  ((y mod 4 =? 0) && negb (y mod 100 =? 0)) || (y mod 400 =? 0).

Definition days_in (y mo : nat) : nat :=
  match mo with
  | 2 => if leap y then 29 else 28
  | 4 | 6 | 9 | 11 => 30
  | _ => 31
  end.

Definition iso_date (s : string) : bool :=
  match list_ascii_of_string s with
  | [y1; y2; y3; y4; h1; m1; m2; h2; d1; d2] =>
      match digit y1, digit y2, digit y3, digit y4,
            digit m1, digit m2, digit d1, digit d2 with
      | Some a, Some b, Some c, Some d, Some e, Some f, Some g, Some h =>
          let y := 1000 * a + 100 * b + 10 * c + d in
          let mo := 10 * e + f in
          let dy := 10 * g + h in
          Ascii.eqb h1 "-"%char && Ascii.eqb h2 "-"%char
          && (1 <=? y) && (1 <=? mo) && (mo <=? 12)
          && (1 <=? dy) && (dy <=? days_in y mo)
      | _, _, _, _, _, _, _, _ => false
      end
  | _ => false
  end.

(** A text of ASCII characters other than the character of code 0, which
    no text column takes: its characters are its bytes, whatever the
    encoding of the database. *)
Definition ascii_text (s : string) : bool :=
  forallb (fun a => let n := nat_of_ascii a in (1 <=? n) && (n <=? 127))
          (list_ascii_of_string s).

(** Every value of the fixture is accepted by its column: ids are
    canonical [UUID] literals, dates are calendar dates, texts are ASCII
    texts that fit their [VARCHAR], the e-mail address of a user, which is
    indexed, has at most 320 characters, integers fit [INT].  Every hash
    of the run succeeds, and two fixture users with the same e-mail
    address have the same id. *)
Definition well_formed (m : imports) (c : chance) : Prop :=
  (forall user, In user (users m) ->
     canonical_uuid (User.id user) = true /\
     ascii_text (User.name user) = true /\
     ascii_text (User.email user) = true /\
     String.length (User.email user) <= 320 /\
     varchar 255 (User.name user) <> None) /\
  (forall i user, nth_error (users m) i = Some user ->
     bcrypt_hash m (User.password user) 10 (salt c i) <> None) /\
  (forall u1 u2, In u1 (users m) -> In u2 (users m) ->
     User.email u1 = User.email u2 -> User.id u1 = User.id u2) /\
  (forall x, In x (customers m) ->
     canonical_uuid (Customer.id x) = true /\
     ascii_text (Customer.name x) = true /\ ascii_text (Customer.email x) = true /\
     ascii_text (Customer.image_url x) = true /\
     varchar 255 (Customer.name x) <> None /\
     varchar 255 (Customer.email x) <> None /\
     varchar 255 (Customer.image_url x) <> None) /\
  (forall x, In x (invoices m) ->
     canonical_uuid (Invoice.customer_id x) = true /\
     iso_date (Invoice.date x) = true /\
     ascii_text (Invoice.status x) = true /\
     int4 (Invoice.amount x) <> None /\
     varchar 255 (Invoice.status x) <> None) /\
  (forall x, In x (revenue m) ->
     ascii_text (Revenue.month x) = true /\
     varchar 4 (Revenue.month x) <> None /\
     int4 (Revenue.revenue x) <> None).

(** Every row of [users] has the id and the e-mail address of one
    fixture user. *)
Definition stems (m : imports) (d : database) : Prop :=
  forall r, In r (rows (users_tbl d)) ->
    exists user, In user (users m) /\ u_id r = Supplied (User.id user) /\
                 u_email r = User.email user.

(** The table an [INSERT] goes to exists. *)
Definition ready (d : database) (q : statement) : Prop :=
  match q with
  | INSERT_users _ _ _ _ => users_tbl d <> None
  | INSERT_customers _ _ _ _ => customers_tbl d <> None
  | INSERT_invoices _ _ _ _ => invoices_tbl d <> None
  | INSERT_revenue _ _ => revenue_tbl d <> None
  | _ => True
  end.

(** [replays p l]: on a sound connection, when the server accepts the
    statements [l] one after the other, [p] completes, having had them
    served. *)
Definition replays (p : M unit) (l : list statement) : Prop :=
  forall w b',
    ttl w = None -> serve_all l (pg w) = Some b' ->
    exists w', p w = (Ok tt, w') /\ pg w' = b' /\ ttl w' = None.

(** Requests served one after the other, each with what it left pending
    run before the next arrives. *)
Fixpoint requests (m : imports) (cs : list chance) (w : world)
  : list outcome * world :=
  match cs with
  | [] => ([], w)
  | c :: rest =>
      let (o, w1) := run m c w in
      let (os, w2) := requests m rest w1 in
      (o :: os, w2)
  end.

(** The response of a call in which nothing rejects. *)
Definition seeded_successfully : outcome :=
  Returned (Json_message "Database seeded successfully"%string) 200.





(** A patient schedule: the rejection of a query reaches the client after
    two more hashes have settled. *)
Definition patient : chance :=
  {| salt := fun i => i; finish := fun i => i; lag := 2 |}.

(** [sample] with a month of seven characters in its revenue. *)
Definition overlong : imports :=
  {| bcrypt_hash := sample_hash;
     users := users rival;
     customers := customers sample;
     invoices := invoices sample;
     revenue := [ {| Revenue.month := "January";
                     Revenue.revenue := 1000 |} ]%string |}.

(** A fixture with ids and dates as the database takes them. *)
Definition deployed : imports :=
  {| bcrypt_hash := sample_hash;
     users := [ {| User.id := "410544b2-4001-4271-9855-fec4b6a6442a";
                   User.name := "User";
                   User.email := "user@nextmail.com";
                   User.password := "123456" |} ]%string;
     customers := [ {| Customer.id := "d6e15727-9fe1-4961-8c5b-ea44a9bd81aa";
                       Customer.name := "Evil Rabbit";
                       Customer.email := "evil@rabbit.com";
                       Customer.image_url :=
                         "/customers/evil-rabbit.png" |} ]%string;
     invoices := [ {| Invoice.customer_id :=
                        "d6e15727-9fe1-4961-8c5b-ea44a9bd81aa";
                      Invoice.amount := 15795;
                      Invoice.status := "pending";
                      Invoice.date := "2022-12-06" |} ]%string;
     revenue := [ {| Revenue.month := "Jan";
                     Revenue.revenue := 2000 |} ]%string |}.

(** ** Basic facts about the client *)

Lemma bind_Ok {A B} (m : M A) (f : A -> M B) w b w' :
  bind m f w = (Ok b, w') ->
  exists a w1, m w = (Ok a, w1) /\ f a w1 = (Ok b, w').
Proof.
  unfold bind. destruct (m w) as [[a|e] w1]; intros H.
  - exists a, w1. split; [reflexivity | exact H].
  - discriminate H.
Qed.

Lemma bind_Throw {A B} (m : M A) (f : A -> M B) w e w' :
  bind m f w = (Throw e, w') ->
  m w = (Throw e, w') \/
  exists a w1, m w = (Ok a, w1) /\ f a w1 = (Throw e, w').
Proof.
  unfold bind. destruct (m w) as [[a|e0] w1]; intros H.
  - right. exists a, w1. split; [reflexivity | exact H].
  - left. inversion H. reflexivity.
Qed.

Lemma sql_wire q w : wire (snd (sql q w)) = wire w ++ [q].
Proof.
  unfold sql. destruct (ttl w) as [[|n]|]; try reflexivity;
    destruct (serve q (pg w)); reflexivity.
Qed.

Lemma sql_late q w : late (snd (sql q w)) = late w.
Proof.
  unfold sql. destruct (ttl w) as [[|n]|]; try reflexivity;
    destruct (serve q (pg w)); reflexivity.
Qed.

Lemma sql_Ok q w u w' :
  sql q w = (Ok u, w') ->
  serve q (pg w) = (inr tt, pg w') /\ ttl w <> Some 0.
Proof.
  unfold sql. destruct (ttl w) as [[|n]|]; try discriminate;
    destruct (serve q (pg w)) as [[e|[]] b]; intros H; inversion H; subst;
    simpl; split; congruence.
Qed.

Lemma sql_pg q w :
  pg (snd (sql q w)) =
  match ttl w with
  | Some 0 => discard (pg w)
  | _ => snd (serve q (pg w))
  end.
Proof.
  unfold sql. destruct (ttl w) as [[|n]|]; try reflexivity;
    destruct (serve q (pg w)); reflexivity.
Qed.

Lemma serve_all_app l1 l2 b :
  serve_all (l1 ++ l2) b =
  match serve_all l1 b with
  | Some b' => serve_all l2 b'
  | None => None
  end.
Proof.
  revert b. induction l1 as [|q l1 IH]; intros b; simpl.
  - reflexivity.
  - destruct (serve q b) as [[e|u] b']; [reflexivity | apply IH].
Qed.

Lemma serve_ROLLBACK b : fst (serve ROLLBACK b) = inr tt.
Proof. unfold serve. destruct (tx b); reflexivity. Qed.

Lemma sql_ROLLBACK_Throw w e w' :
  sql ROLLBACK w = (Throw e, w') -> e = ConnectionLost /\ ttl w = Some 0.
Proof.
  unfold sql. pose proof (serve_ROLLBACK (pg w)) as R.
  destruct (ttl w) as [[|n]|]; destruct (serve ROLLBACK (pg w)) as [r b];
    simpl in R; subst r; intros H; inversion H; auto.
Qed.

(** ** The response of the handler *)

(** C10: when the [try] block throws and the [ROLLBACK] of the [catch]
    block throws as well, the handler raises that second exception (the
    connection is lost) and returns no response at all. *)
Theorem GET_raises_when_rollback_fails m c w e w1 e' w2 :
  seeding m c w = (Throw e, w1) ->
  sql ROLLBACK w1 = (Throw e', w2) ->
  GET m c w = (Raised e', w2) /\ e' = ConnectionLost /\
  forall body status, fst (GET m c w) <> Returned body status.
Proof.
  intros Hs Hr.
  assert (G : GET m c w = (Raised e', w2)).
  { unfold GET. rewrite Hs, Hr. reflexivity. }
  split; [exact G|]. split.
  - apply sql_ROLLBACK_Throw in Hr. tauto.
  - intros body status. rewrite G. discriminate.
Qed.

(** ** Single statements *)

Lemma sql_sound q w :
  ttl w = None ->
  sql q w =
  (match fst (serve q (pg w)) with inr _ => Ok tt | inl e => Throw (Postgres e) end,
   {| pg := snd (serve q (pg w)); ttl := None; wire := wire w ++ [q];
      late := late w |}).
Proof.
  intros T. unfold sql. rewrite T. destruct (serve q (pg w)); reflexivity.
Qed.


Arguments varchar : simpl never.
Arguments int4 : simpl never.
Arguments has_user_id : simpl never.
Arguments has_user_email : simpl never.

(** C9: for a fixture of one user whose id is not in [users] and whose
    e-mail address is, a call on a sound connection and an idle session
    has the [INSERT] rejected by the unique constraint on the e-mail
    column; the handler issues [ROLLBACK] and answers 500 with that error,
    and the database is as it was. *)
Theorem GET_email_conflict_fails m c w user h t :
  users m = [user] ->
  bcrypt_hash m (User.password user) 10 (salt c 0) = Some h ->
  varchar 255 (User.name user) <> None ->
  tx (pg w) = Idle -> ttl w = None ->
  users_tbl (data (pg w)) = Some t ->
  has_user_id (Supplied (User.id user)) t = false ->
  has_user_email (User.email user) t = true ->
  exists w',
    GET m c w =
    (Returned (Json_error (Postgres (unique_violation "users_email_key"))) 500, w') /\
    data (pg w') = data (pg w) /\ late w' = late w /\
    wire w' = wire w ++ [BEGIN; CREATE_EXTENSION_uuid_ossp; CREATE_TABLE_users;
                         INSERT_users (User.id user) (User.name user) (User.email user) h;
                         ROLLBACK].
Proof.
  intros Hu Hh Hn Htx Httl Ht Hid Hem.
  destruct (varchar 255 (User.name user)) as [name'|] eqn:Hv; [|congruence].
  destruct w as [[d s g] tl wi la]. destruct d as [ext ut ct it rt].
  simpl in Htx, Httl, Ht. subst s tl ut.
  unfold GET, seeding, seedUsers, user_jobs. rewrite Hu.
  cbn [List.length seq combine map by_finish fold_left enqueue fst snd].
  unfold hashed. rewrite Hh.
  unfold bind, sql. cbn. rewrite Hv, Hid, Hem.
  destruct (lag c); cbn; eexists; (split; [reflexivity|]); cbn;
    repeat rewrite <- app_assoc; auto.
Qed.

(** ** Calls in which nothing rejects *)

Lemma plays_sql q : plays (sql q) [q].
Proof.
  intros w u w' H. pose proof (sql_wire q w) as W. pose proof (sql_late q w) as L.
  rewrite H in W, L. simpl in W, L.
  apply sql_Ok in H. destruct H as [H _]. simpl. rewrite H. auto.
Qed.

Lemma plays_seq p1 p2 l1 l2 :
  plays p1 l1 -> plays p2 l2 -> plays (p1 ;; p2) (l1 ++ l2).
Proof.
  intros P1 P2 w u w' H.
  apply bind_Ok in H. destruct H as (a & w1 & H1 & H2).
  apply P1 in H1. apply P2 in H2.
  destruct H1 as (S1 & W1 & L1). destruct H2 as (S2 & W2 & L2).
  rewrite serve_all_app, S1, S2, W2, W1, L2, L1, app_assoc. auto.
Qed.

Lemma plays_Promise_all qs : plays (Promise_all qs) qs.
Proof.
  induction qs as [|q qs IH]; intros w u w' H; simpl in *.
  - inversion H. subst. rewrite app_nil_r. auto.
  - destruct (sql q w) as [r w1] eqn:E1.
    destruct (Promise_all qs w1) as [r' w2] eqn:E2.
    destruct r as [[]|e]; [|discriminate H].
    inversion H. subst.
    apply plays_sql in E1. apply IH in E2.
    destruct E1 as (S1 & W1 & L1). destruct E2 as (S2 & W2 & L2).
    simpl in S1. destruct (serve q (pg w)) as [[e|x] b]; [discriminate S1|].
    inversion S1. subst. rewrite S2, W2, W1, L2, L1, <- app_assoc. auto.
Qed.

Lemma settling_Ringing slack jobs e k w :
  exists e' w', Promise_all_settling slack jobs (Ringing e k) w = (Throw e', w').
Proof.
  revert k w. induction jobs as [|j jobs IH]; intros k w; simpl.
  - eauto.
  - destruct k as [|k]; [eauto|]. destruct j as [q|]; [apply IH | eauto].
Qed.

Lemma plays_settling slack jobs :
  plays (Promise_all_settling slack jobs Quiet) (stragglers jobs).
Proof.
  induction jobs as [|j jobs IH]; intros w u w' H; simpl in *.
  - inversion H. subst. rewrite app_nil_r. auto.
  - destruct j as [q|]; [|discriminate H].
    destruct (sql q w) as [[[]|e] w1] eqn:E1.
    + apply plays_sql in E1. apply IH in H.
      destruct E1 as (S1 & W1 & L1). destruct H as (S2 & W2 & L2).
      simpl in S1 |- *. destruct (serve q (pg w)) as [[e|x] b]; [discriminate S1|].
      inversion S1. subst. rewrite S2, W2, W1, L2, L1, <- app_assoc. auto.
    + destruct (settling_Ringing slack jobs e slack w1) as (e' & w2 & R).
      rewrite R in H. discriminate H.
Qed.

Lemma settling_Ok_hashed slack jobs w u w' :
  Promise_all_settling slack jobs Quiet w = (Ok u, w') ->
  Forall (fun j => j <> None) jobs.
Proof.
  revert w. induction jobs as [|j jobs IH]; intros w H; simpl in *.
  - constructor.
  - destruct j as [q|]; [|discriminate H]. constructor; [discriminate|].
    destruct (sql q w) as [[[]|e] w1] eqn:E1.
    + eapply IH. exact H.
    + destruct (settling_Ringing slack jobs e slack w1) as (e' & w2 & R).
      rewrite R in H. discriminate H.
Qed.

Lemma seedUsers_plays m c : plays (seedUsers m c) (users_script m c).
Proof.
  apply (plays_seq _ _ [_] (_ :: _)); [apply plays_sql|].
  apply (plays_seq _ _ [_] _); [apply plays_sql | apply plays_settling].
Qed.

Lemma seedCustomers_plays m : plays (seedCustomers m) (customers_script m).
Proof.
  apply (plays_seq _ _ [_] (_ :: _)); [apply plays_sql|].
  apply (plays_seq _ _ [_] _); [apply plays_sql | apply plays_Promise_all].
Qed.

Lemma seedInvoices_plays m : plays (seedInvoices m) (invoices_script m).
Proof.
  apply (plays_seq _ _ [_] (_ :: _)); [apply plays_sql|].
  apply (plays_seq _ _ [_] _); [apply plays_sql | apply plays_Promise_all].
Qed.

Lemma seedRevenue_plays m : plays (seedRevenue m) (revenue_script m).
Proof.
  apply (plays_seq _ _ [_] _); [apply plays_sql | apply plays_Promise_all].
Qed.

Lemma seeding_plays m c : plays (seeding m c) (script m c).
Proof.
  unfold script, body. repeat rewrite <- app_assoc.
  unfold seeding.
  apply plays_seq; [apply plays_sql|].
  apply plays_seq; [apply seedUsers_plays|].
  apply plays_seq; [apply seedCustomers_plays|].
  apply plays_seq; [apply seedInvoices_plays|].
  apply plays_seq; [apply seedRevenue_plays | apply plays_sql].
Qed.

(** ** The server on an accepted script *)

Lemma uuid_eqb_eq a b : uuid_eqb a b = true <-> a = b.
Proof.
  destruct a as [s|n], b as [t|k]; simpl; split; intros H;
    try discriminate; try congruence.
  - apply String.eqb_eq in H. congruence.
  - inversion H. apply String.eqb_refl.
  - apply Nat.eqb_eq in H. congruence.
  - inversion H. apply Nat.eqb_refl.
Qed.

Lemma has_user_id_In k t : has_user_id k t = true <-> In k (map u_id t).
Proof.
  unfold has_user_id. rewrite existsb_exists, in_map_iff.
  split; intros (r & A & B).
  - exists r. apply uuid_eqb_eq in B. auto.
  - exists r. split; [exact B | apply uuid_eqb_eq; exact A].
Qed.

Lemma has_customer_id_In k t :
  has_customer_id k t = true <-> In k (map c_id t).
Proof.
  unfold has_customer_id. rewrite existsb_exists, in_map_iff.
  split; intros (r & A & B).
  - exists r. apply uuid_eqb_eq in B. auto.
  - exists r. split; [exact B | apply uuid_eqb_eq; exact A].
Qed.

Lemma has_invoice_id_In k t :
  has_invoice_id k t = true <-> In k (map i_id t).
Proof.
  unfold has_invoice_id. rewrite existsb_exists, in_map_iff.
  split; intros (r & A & B).
  - exists r. apply uuid_eqb_eq in B. auto.
  - exists r. split; [exact B | apply uuid_eqb_eq; exact A].
Qed.

Lemma has_month_In k t : has_month k t = true <-> In k (map r_month t).
Proof.
  unfold has_month. rewrite existsb_exists, in_map_iff.
  split; intros (r & A & B).
  - exists r. apply String.eqb_eq in B. auto.
  - exists r. split; [exact B | apply String.eqb_eq; exact A].
Qed.

Lemma not_true_In {A} (P : bool) (x : A) (l : list A) :
  (P = true <-> In x l) -> P = false -> ~ In x l.
Proof. intros H F I. apply H in I. congruence. Qed.

Lemma serve_in_tx q b saved r b' :
  tx b = InTransaction saved -> control q = false ->
  serve q b = (inr r, b') ->
  execute q (data b) (drawn b) = (inr (data b'), drawn b') /\
  tx b' = InTransaction saved.
Proof.
  intros T C. unfold serve. rewrite T.
  destruct q; try discriminate C;
    destruct (execute _ (data b) (drawn b)) as [[e|d] g];
    intros H; inversion H; subst; simpl; auto.
Qed.

Lemma serve_all_in_tx qs b saved b' :
  tx b = InTransaction saved ->
  Forall (fun q => control q = false) qs ->
  serve_all qs b = Some b' ->
  exec_all qs (data b) (drawn b) = Some (data b', drawn b') /\
  tx b' = InTransaction saved.
Proof.
  intros T F. revert b T. induction F as [|q qs C F IH]; intros b T H; simpl in *.
  - inversion H. subst. auto.
  - destruct (serve q b) as [[e|r] b1] eqn:E; [discriminate H|].
    destruct (serve_in_tx q b saved r b1 T C E) as [X T1].
    rewrite X. apply IH; assumption.
Qed.

Ltac split_execute H :=
  repeat match type of H with
         | context [match ?x with _ => _ end] => destruct x eqn:?
         | context [if ?x then _ else _] => destruct x eqn:?
         end.

Lemma int4_Some z z' : int4 z = Some z' -> z' = z.
Proof. unfold int4. destruct (_ && _)%bool; congruence. Qed.

Ltac keyed_cases H :=
  split_execute H; inversion H; subst; clear H; simpl;
  repeat match goal with
         | E : int4 _ = Some _ |- _ => apply int4_Some in E; subst
         end;
  repeat match goal with E : _ = Some _ |- _ => rewrite E end;
  repeat match goal with E : _ = None |- _ => rewrite E end;
  simpl;
  (split; [|split]); try (left; reflexivity); try discriminate;
  try (intros [? | ?]; congruence); try (intros _; congruence).

Lemma execute_users :
  keyed_step users_tbl u_id user_row_of user_key CREATE_TABLE_users.
Proof.
  intros q d g d' g' H. destruct q; simpl in H; keyed_cases H.
  all: try (intros k E; inversion E; subst).
  - apply has_user_id_In. assumption.
  - right. eexists. split; [reflexivity|]. simpl. repeat split; auto.
    eapply not_true_In; [apply has_user_id_In | assumption].
  - rewrite map_app, in_app_iff. right. simpl. auto.
Qed.

Lemma execute_customers :
  keyed_step customers_tbl c_id customer_row_of customer_key
    CREATE_TABLE_customers.
Proof.
  intros q d g d' g' H. destruct q; simpl in H; keyed_cases H.
  all: try (intros k E; inversion E; subst).
  - apply has_customer_id_In. assumption.
  - right. eexists. split; [reflexivity|]. simpl. repeat split; auto.
    eapply not_true_In; [apply has_customer_id_In | assumption].
  - rewrite map_app, in_app_iff. right. simpl. auto.
Qed.

Lemma execute_revenue :
  keyed_step revenue_tbl r_month revenue_row_of revenue_key
    CREATE_TABLE_revenue.
Proof.
  intros q d g d' g' H. destruct q; simpl in H; keyed_cases H.
  all: try (intros k E; inversion E; subst).
  - apply has_month_In. assumption.
  - right. eexists. split; [reflexivity|]. simpl. repeat split; auto.
    eapply not_true_In; [apply has_month_In | assumption].
  - rewrite map_app, in_app_iff. right. simpl. auto.
Qed.

Section Keyed.

Context {R K : Type}.
Variable tbl : database -> option (list R).
Variable key : R -> K.
Variable row_of : statement -> R -> Prop.
Variable key_of : statement -> option K.
Variable create : statement.
Hypothesis step : keyed_step tbl key row_of key_of create.

Lemma keyed_exec_all qs : forall d g d' g',
  exec_all qs d g = Some (d', g') ->
  exists ext,
    rows (tbl d') = rows (tbl d) ++ ext /\
    (NoDup (map key (rows (tbl d))) -> NoDup (map key (rows (tbl d')))) /\
    (forall q k, In q qs -> key_of q = Some k ->
                 In k (map key (rows (tbl d')))) /\
    (forall r, In r ext -> exists q, In q qs /\ row_of q r) /\
    (tbl d <> None \/ In create qs -> tbl d' <> None).
Proof.
  induction qs as [|q qs IH]; intros d g d' g' H; simpl in H.
  - inversion H; subst. exists []. rewrite app_nil_r.
    repeat split; auto; try (intros; contradiction).
    intros [X | []]. exact X.
  - destruct (execute q d g) as [[e|d1] g1] eqn:E; [discriminate H|].
    destruct (step q d g d1 g1 E) as (S1 & S2 & S3).
    destruct (IH d1 g1 d' g' H) as (ext & I1 & I2 & I3 & I4 & I5).
    assert (G : exists one, rows (tbl d1) = rows (tbl d) ++ one /\
                  (forall r, In r one -> row_of q r) /\
                  (NoDup (map key (rows (tbl d))) ->
                   NoDup (map key (rows (tbl d1))))).
    { destruct S1 as [S1 | (r & S1 & Rq & Fr)].
      - exists []. rewrite app_nil_r, S1. repeat split; auto.
        intros r [].
      - exists [r]. rewrite S1. repeat split; auto.
        + intros r' [<- | []]. exact Rq.
        + intros N. rewrite map_app. simpl.
          apply NoDup_app; auto.
          * repeat constructor. intros [].
          * intros x I [<- | []]. exact (Fr I). }
    destruct G as (one & G1 & G2 & G3).
    exists (one ++ ext).
    split; [rewrite I1, G1, app_assoc; reflexivity|].
    split; [|split; [|split]].
    + intros N. apply I2, G3, N.
    + intros q' k [<- | I] Kq.
      * rewrite I1, map_app, in_app_iff. left. eauto.
      * eauto.
    + intros r I. apply in_app_iff in I. destruct I as [I | I].
      * exists q. split; [left; reflexivity | auto].
      * destruct (I4 r I) as (q' & A & B). exists q'. split; [right|]; auto.
    + intros [X | [<- | X]]; apply I5; auto.
Qed.

End Keyed.

Lemma ids_below_fresh g t : ids_below g t -> has_invoice_id (Generated g) t = false.
Proof.
  intros B. destruct (has_invoice_id (Generated g) t) eqn:E; [|reflexivity].
  apply has_invoice_id_In, in_map_iff in E. destruct E as (r & A & I).
  destruct (B r I) as (k & X & L). rewrite X in A. inversion A. lia.
Qed.

Lemma execute_invoices q d g d' g' :
  execute q d g = (inr d', g') ->
  ids_below g (rows (invoices_tbl d)) ->
  (if inserts_invoice q
   then exists r, rows (invoices_tbl d') = rows (invoices_tbl d) ++ [r] /\
                  invoice_row_of q r /\ i_id r = Generated g /\ g' = S g
   else rows (invoices_tbl d') = rows (invoices_tbl d) /\ g' = g) /\
  (invoices_tbl d <> None \/ q = CREATE_TABLE_invoices ->
   invoices_tbl d' <> None).
Proof.
  intros H B. destruct q; simpl in H; split_execute H; inversion H; subst; clear H;
    simpl;
    repeat match goal with
           | E : int4 _ = Some _ |- _ => apply int4_Some in E; subst
           end;
    repeat match goal with E : invoices_tbl _ = _ |- _ => rewrite E in * end;
    simpl; split; auto; try discriminate;
    try (intros [? | ?]; congruence); try (intros _; congruence).
  - simpl in B. rewrite (ids_below_fresh _ _ B) in Heqb. discriminate.
  - eexists. split; [reflexivity|]. simpl. auto.
Qed.

Lemma ids_below_snoc g t r :
  ids_below g t -> i_id r = Generated g -> ids_below (S g) (t ++ [r]).
Proof.
  intros B E x I. apply in_app_iff in I. destruct I as [I | [<- | []]].
  - destruct (B x I) as (k & X & L). exists k. split; [exact X | lia].
  - exists g. split; [exact E | lia].
Qed.

Lemma exec_all_invoices qs : forall d g d' g',
  exec_all qs d g = Some (d', g') ->
  ids_below g (rows (invoices_tbl d)) ->
  exists ext,
    rows (invoices_tbl d') = rows (invoices_tbl d) ++ ext /\
    Forall2 invoice_row_of (filter inserts_invoice qs) ext /\
    map i_id ext = map Generated (seq g (List.length ext)) /\
    g' = g + List.length ext /\
    (invoices_tbl d <> None \/ In CREATE_TABLE_invoices qs ->
     invoices_tbl d' <> None).
Proof.
  induction qs as [|q qs IH]; intros d g d' g' H B; simpl in H.
  - inversion H; subst. exists []. rewrite app_nil_r. simpl.
    repeat split; auto. intros [X | []]. exact X.
  - destruct (execute q d g) as [[e|d1] g1] eqn:E; [discriminate H|].
    destruct (execute_invoices q d g d1 g1 E B) as (S1 & S2).
    simpl. destruct (inserts_invoice q).
    + destruct S1 as (r & R1 & R2 & R3 & ->).
      assert (B1 : ids_below (S g) (rows (invoices_tbl d1))).
      { rewrite R1. apply ids_below_snoc; assumption. }
      destruct (IH d1 (S g) d' g' H B1) as (ext & I1 & I2 & I3 & I4 & I5).
      exists (r :: ext). rewrite I1, R1, <- app_assoc. simpl.
      rewrite R3, I3. repeat split; auto; try lia.
      intros [X | [Q | X]]; apply I5;
        [left; apply S2; auto | left; apply S2; auto | right; exact X].
    + destruct S1 as (R1 & ->).
      assert (B1 : ids_below g (rows (invoices_tbl d1))) by (rewrite R1; exact B).
      destruct (IH d1 g d' g' H B1) as (ext & I1 & I2 & I3 & I4 & I5).
      exists ext. rewrite I1, R1. repeat split; auto.
      intros [X | [Q | X]]; apply I5;
        [left; apply S2; auto | left; apply S2; auto | right; exact X].
Qed.

(** ** The statements of a call *)

Lemma In_enqueue {A} k (a : A) l x :
  In x (enqueue k a l) <-> x = (k, a) \/ In x l.
Proof.
  induction l as [|[k' a'] l IH]; simpl.
  - intuition.
  - destruct (k' <=? k); simpl; rewrite ?IH; intuition.
Qed.

Lemma In_fold_enqueue {A} (l acc : list (nat * A)) x :
  In x (fold_left (fun acc ka => enqueue (fst ka) (snd ka) acc) l acc) <->
  In x l \/ In x acc.
Proof.
  revert acc. induction l as [|[k a] l IH]; intros acc; simpl.
  - intuition.
  - rewrite IH, In_enqueue. intuition.
Qed.

Lemma In_by_finish {A} (l : list (nat * A)) x : In x (by_finish l) <-> In x l.
Proof. unfold by_finish. rewrite In_fold_enqueue. simpl. intuition. Qed.

Lemma In_combine_seq {A} (l : list A) s i u :
  In (i, u) (combine (seq s (List.length l)) l) <->
  s <= i /\ nth_error l (i - s) = Some u.
Proof.
  revert s. induction l as [|a l IH]; intros s; simpl.
  - split; [intros [] | intros [_ H]]. destruct (i - s); discriminate H.
  - rewrite IH. split.
    + intros [E | [L N]].
      * inversion E; subst. rewrite Nat.sub_diag. simpl. auto.
      * split; [lia|]. replace (i - s) with (S (i - S s)) by lia. exact N.
    + intros [L N]. destruct (i - s) as [|k] eqn:E.
      * left. simpl in N. inversion N. f_equal. lia.
      * right. split; [lia|]. simpl in N. replace (i - S s) with k by lia.
        exact N.
Qed.

Lemma user_jobs_In m c j :
  In j (user_jobs m c) <->
  exists i user, nth_error (users m) i = Some user /\ j = hashed m c i user.
Proof.
  unfold user_jobs. rewrite in_map_iff. split.
  - intros ([k j'] & E & I). simpl in E. subst j'.
    apply In_by_finish, in_map_iff in I. destruct I as ([i u] & E & I).
    simpl in E. inversion E; subst. apply In_combine_seq in I.
    destruct I as [_ N]. rewrite Nat.sub_0_r in N. eauto.
  - intros (i & u & N & ->). exists (finish c i, hashed m c i u).
    split; [reflexivity|]. apply In_by_finish, in_map_iff.
    exists (i, u). split; [reflexivity|]. apply In_combine_seq.
    split; [lia|]. rewrite Nat.sub_0_r. exact N.
Qed.

Lemma stragglers_In q jobs : In q (stragglers jobs) <-> In (Some q) jobs.
Proof.
  unfold stragglers. rewrite in_flat_map. split.
  - intros ([q'|] & I & X); simpl in X; [|contradiction].
    destruct X as [<- | []]. exact I.
  - intros I. exists (Some q). simpl. auto.
Qed.

Lemma hashed_Some m c i user q :
  hashed m c i user = Some q ->
  exists h, bcrypt_hash m (User.password user) 10 (salt c i) = Some h /\
            q = INSERT_users (User.id user) (User.name user)
                  (User.email user) h.
Proof.
  unfold hashed. destruct (bcrypt_hash _ _ _ _) as [h|]; intros H;
    inversion H. eauto.
Qed.

(** The [INSERT]s of the user closures are exactly the hashed fixture
    records. *)
Lemma user_inserts_In m c q :
  In q (stragglers (user_jobs m c)) <->
  exists i user h,
    nth_error (users m) i = Some user /\
    bcrypt_hash m (User.password user) 10 (salt c i) = Some h /\
    q = INSERT_users (User.id user) (User.name user) (User.email user) h.
Proof.
  rewrite stragglers_In, user_jobs_In. split.
  - intros (i & u & N & E). symmetry in E. apply hashed_Some in E.
    destruct E as (h & E & ->). eauto 6.
  - intros (i & u & h & N & E & ->). exists i, u. split; [exact N|].
    unfold hashed. rewrite E. reflexivity.
Qed.

Lemma body_In m c q :
  In q (body m c) <->
  q = CREATE_EXTENSION_uuid_ossp \/
  q = CREATE_TABLE_users \/ In q (stragglers (user_jobs m c)) \/
  q = CREATE_TABLE_customers \/ In q (customer_inserts m) \/
  q = CREATE_TABLE_invoices \/ In q (invoice_inserts m) \/
  q = CREATE_TABLE_revenue \/ In q (revenue_inserts m).
Proof.
  unfold body, users_script, customers_script, invoices_script, revenue_script.
  repeat rewrite in_app_iff. simpl. intuition congruence.
Qed.

Lemma body_plain m c : Forall (fun q => control q = false) (body m c).
Proof.
  apply Forall_forall. intros q I. apply body_In in I.
  unfold customer_inserts, invoice_inserts, revenue_inserts in I.
  repeat rewrite in_map_iff in I. rewrite user_inserts_In in I.
  destruct I as [-> | [-> | [(i & u & h & _ & _ & ->) | [-> | [(x & <- & _) |
                [-> | [(x & <- & _) | [-> | (x & <- & _)]]]]]]]]; reflexivity.
Qed.

Lemma GET_200 m c w b w' :
  GET m c w = (Returned b 200, w') -> seeding m c w = (Ok tt, w').
Proof.
  unfold GET. destruct (seeding m c w) as [[[]|e] w1].
  - intros H. inversion H. reflexivity.
  - destruct (sql ROLLBACK w1) as [[[]|e'] w2]; intros H; inversion H.
Qed.

Lemma settle_nothing w : late w = [] -> settle w = w.
Proof. destruct w as [b t wi la]. simpl. intros ->. reflexivity. Qed.

Lemma run_200 m c w b w' :
  late w = [] -> run m c w = (Returned b 200, w') ->
  seeding m c w = (Ok tt, w').
Proof.
  intros L. unfold run. destruct (GET m c w) as [o w1] eqn:G. intros H.
  inversion H; subst. apply GET_200 in G.
  pose proof (seeding_plays m c w tt w1 G) as (_ & _ & L1).
  rewrite settle_nothing by congruence. exact G.
Qed.

Lemma seeding_Ok_hashed m c w u w' :
  seeding m c w = (Ok u, w') -> Forall (fun j => j <> None) (user_jobs m c).
Proof.
  intros H. unfold seeding in H.
  apply bind_Ok in H. destruct H as (a1 & w1 & _ & H).
  apply bind_Ok in H. destruct H as (a2 & w2 & H & _).
  unfold seedUsers in H.
  apply bind_Ok in H. destruct H as (a3 & w3 & _ & H).
  apply bind_Ok in H. destruct H as (a4 & w4 & _ & H).
  eapply settling_Ok_hashed. exact H.
Qed.

Lemma serve_BEGIN_Idle b :
  tx b = Idle ->
  serve BEGIN b =
  (inr tt, {| data := data b; tx := InTransaction (data b); drawn := drawn b |}).
Proof. intros T. unfold serve. rewrite T. reflexivity. Qed.

Lemma serve_COMMIT_InTransaction b saved :
  tx b = InTransaction saved ->
  serve COMMIT b = (inr tt, {| data := data b; tx := Idle; drawn := drawn b |}).
Proof. intros T. unfold serve. rewrite T. reflexivity. Qed.

(** A call that answers 200 from an idle session has run [body] inside
    one transaction and committed it. *)
Lemma seeded m c w b w' :
  tx (pg w) = Idle -> late w = [] ->
  run m c w = (Returned b 200, w') ->
  exec_all (body m c) (data (pg w)) (drawn (pg w))
  = Some (data (pg w'), drawn (pg w')) /\
  tx (pg w') = Idle /\ late w' = [] /\
  wire w' = wire w ++ script m c /\
  Forall (fun j => j <> None) (user_jobs m c).
Proof.
  intros T L H. apply run_200 in H; [|exact L].
  pose proof (seeding_Ok_hashed _ _ _ _ _ H) as HJ.
  apply seeding_plays in H. destruct H as (S & W & L').
  change (script m c) with (BEGIN :: (body m c ++ [COMMIT])) in S.
  cbn [serve_all] in S. rewrite (serve_BEGIN_Idle _ T) in S.
  rewrite serve_all_app in S.
  destruct (serve_all (body m c) _) as [b1|] eqn:E; [|discriminate S].
  apply serve_all_in_tx with (saved := data (pg w)) in E;
    [|reflexivity|apply body_plain].
  cbn [data drawn] in E. destruct E as [E T1].
  cbn [serve_all] in S. rewrite (serve_COMMIT_InTransaction _ _ T1) in S.
  inversion S. cbn [data drawn tx].
  repeat split; auto; congruence.
Qed.

Lemma Forall2_In_r {A B} (P : A -> B -> Prop) l1 l2 y :
  Forall2 P l1 l2 -> In y l2 -> exists x, In x l1 /\ P x y.
Proof.
  induction 1 as [|a b l1 l2 Pab F IH]; intros I; simpl in I.
  - contradiction.
  - destruct I as [<- | I].
    + exists a. simpl. auto.
    + destruct (IH I) as (x & X & Px). exists x. simpl. auto.
Qed.

Lemma rows_Some {R} (t : option (list R)) : t <> None -> t = Some (rows t).
Proof. destruct t; [reflexivity | congruence]. Qed.

Lemma ids_below_nil g : ids_below g [].
Proof. intros r []. Qed.

(** ** Seeding an empty database *)

(** C8: when every invoice of the fixture names a customer of the
    fixture, a call that answers 200 on an empty database leaves every row
    of [invoices] with the id of a row of [customers]. *)
Theorem invoices_reference_customers m c w b w' :
  pristine w ->
  (forall invoice, In invoice (invoices m) ->
     exists customer, In customer (customers m) /\
                      Invoice.customer_id invoice = Customer.id customer) ->
  run m c w = (Returned b 200, w') ->
  exists ti tc,
    invoices_tbl (data (pg w')) = Some ti /\
    customers_tbl (data (pg w')) = Some tc /\
    forall r, In r ti -> exists r', In r' tc /\ i_customer_id r = c_id r'.
Proof.
  intros (D & T & L) Ref H.
  destruct (seeded m c w b w' T L H) as (E & _).
  rewrite D in E.
  destruct (keyed_exec_all _ _ _ _ _ execute_customers _ _ _ _ _ E)
    as (extc & C1 & _ & C3 & _ & C5).
  destruct (exec_all_invoices _ _ _ _ _ E (ids_below_nil _))
    as (exti & I1 & I2 & _ & _ & I5).
  exists (rows (invoices_tbl (data (pg w')))),
         (rows (customers_tbl (data (pg w')))).
  split; [|split].
  - apply rows_Some, I5. right. apply body_In. tauto.
  - apply rows_Some, C5. right. apply body_In. tauto.
  - intros r Ir. rewrite I1 in Ir. simpl in Ir.
    destruct (Forall2_In_r _ _ _ _ I2 Ir) as (q & Iq & Rq).
    apply filter_In in Iq. destruct Iq as [Iq _].
    destruct q; simpl in Rq; try contradiction.
    destruct Rq as (Rc & _).
    apply body_In in Iq.
    assert (J : In (INSERT_invoices customer_id amount status date)
                  (invoice_inserts m)).
    { unfold customer_inserts, revenue_inserts in Iq.
      rewrite user_inserts_In in Iq. repeat rewrite in_map_iff in Iq.
      destruct Iq as [Q | [Q | [(i & u & h & _ & _ & Q) | [Q | [(x & Q & _) |
                [Q | [Q | [Q | (x & Q & _)]]]]]]]]; try discriminate Q.
      exact Q. }
    unfold invoice_inserts in J. apply in_map_iff in J.
    destruct J as (invoice & Q & J). inversion Q; subst.
    destruct (Ref invoice J) as (customer & Jc & Ec).
    assert (K : In (Supplied (Customer.id customer))
                  (map c_id (rows (customers_tbl (data (pg w')))))).
    { apply (C3 (INSERT_customers (Customer.id customer) (Customer.name customer)
                   (Customer.email customer) (Customer.image_url customer))).
      - apply body_In. do 4 right. left. unfold customer_inserts.
        apply in_map_iff. exists customer. auto.
      - reflexivity. }
    apply in_map_iff in K. destruct K as (r' & K1 & K2).
    exists r'. split; [exact K2|]. rewrite Rc, Ec. auto.
Qed.

Lemma filter_none {A} (f : A -> bool) l :
  (forall x, In x l -> f x = false) -> filter f l = [].
Proof.
  induction l as [|a l IH]; intros H; simpl; [reflexivity|].
  rewrite (H a) by (left; reflexivity). apply IH. intros x I. apply H. right. exact I.
Qed.

Lemma filter_every {A} (f : A -> bool) l :
  (forall x, In x l -> f x = true) -> filter f l = l.
Proof.
  induction l as [|a l IH]; intros H; simpl; [reflexivity|].
  rewrite (H a) by (left; reflexivity). f_equal. apply IH. intros x I. apply H. right. exact I.
Qed.

Lemma body_invoice_inserts m c :
  filter inserts_invoice (body m c) = invoice_inserts m.
Proof.
  unfold body, users_script, customers_script, invoices_script, revenue_script.
  repeat rewrite filter_app. simpl.
  rewrite (filter_none _ (stragglers _)), (filter_none _ (customer_inserts _)),
    (filter_none _ (revenue_inserts _)), filter_every, app_nil_r; try reflexivity.
  - unfold invoice_inserts. intros q I. apply in_map_iff in I.
    destruct I as (x & <- & _). reflexivity.
  - unfold revenue_inserts. intros q I. apply in_map_iff in I.
    destruct I as (x & <- & _). reflexivity.
  - unfold customer_inserts. intros q I. apply in_map_iff in I.
    destruct I as (x & <- & _). reflexivity.
  - intros q I. apply user_inserts_In in I.
    destruct I as (i & u & h & _ & _ & ->). reflexivity.
Qed.

Lemma invoice_rows_agree qs : forall e1 e2,
  Forall2 invoice_row_of qs e1 -> Forall2 invoice_row_of qs e2 ->
  map invoice_fields e1 = map invoice_fields e2.
Proof.
  induction qs as [|q qs IH]; intros e1 e2 F1 F2; inversion F1; inversion F2;
    subst; simpl; [reflexivity|].
  f_equal; [|apply IH; assumption].
  destruct q; simpl in *; try contradiction.
  unfold invoice_fields.
  repeat match goal with H : _ /\ _ |- _ => destruct H end. congruence.
Qed.

Lemma Generated_injective : forall a b, Generated a = Generated b -> a = b.
Proof. intros a b H. inversion H. reflexivity. Qed.

(** C3: two calls that both answer 200, the first on an empty database,
    leave [invoices] with twice as many rows as the fixture has invoices:
    the second call appends one row per invoice, with the field values of
    the rows of the first call and ids that occur nowhere else. *)
Theorem invoices_duplicated m c1 c2 w0 b1 w1 b2 w2 :
  pristine w0 ->
  run m c1 w0 = (Returned b1 200, w1) ->
  run m c2 w1 = (Returned b2 200, w2) ->
  exists first second,
    invoices_tbl (data (pg w1)) = Some first /\
    invoices_tbl (data (pg w2)) = Some (first ++ second) /\
    List.length first = List.length (invoices m) /\
    List.length second = List.length (invoices m) /\
    List.length (first ++ second) = 2 * List.length (invoices m) /\
    Forall2 invoice_row_of (invoice_inserts m) first /\
    Forall2 invoice_row_of (invoice_inserts m) second /\
    map invoice_fields second = map invoice_fields first /\
    NoDup (map i_id (first ++ second)).
Proof.
  intros (D & T & L) H1 H2.
  destruct (seeded m c1 w0 b1 w1 T L H1) as (E1 & T1 & L1 & _).
  destruct (seeded m c2 w1 b2 w2 T1 L1 H2) as (E2 & _).
  rewrite D in E1.
  destruct (exec_all_invoices _ _ _ _ _ E1 (ids_below_nil _))
    as (first & A1 & A2 & A3 & A4 & A5).
  simpl in A1. rewrite body_invoice_inserts in A2.
  assert (B : ids_below (drawn (pg w1)) (rows (invoices_tbl (data (pg w1))))).
  { rewrite A1. intros r I. apply (in_map i_id) in I. rewrite A3 in I.
    apply in_map_iff in I. destruct I as (k & <- & I). apply in_seq in I.
    exists k. split; [reflexivity | lia]. }
  destruct (exec_all_invoices _ _ _ _ _ E2 B)
    as (second & B1 & B2 & B3 & B4 & B5).
  rewrite body_invoice_inserts in B2.
  assert (N1 : List.length first = List.length (invoices m)).
  { apply Forall2_length in A2. unfold invoice_inserts in A2.
    rewrite length_map in A2. congruence. }
  assert (N2 : List.length second = List.length (invoices m)).
  { apply Forall2_length in B2. unfold invoice_inserts in B2.
    rewrite length_map in B2. congruence. }
  exists first, second. repeat split; auto.
  - rewrite <- A1. apply rows_Some, A5. right. apply body_In. tauto.
  - rewrite <- A1, <- B1. apply rows_Some, B5. right. apply body_In. tauto.
  - rewrite length_app. lia.
  - eapply invoice_rows_agree; eassumption.
  - rewrite map_app, A3, B3, A4, <- map_app, <- seq_app.
    apply Injective_map_NoDup; [exact Generated_injective | apply seq_NoDup].
Qed.

(** ** Invariants of a call, whatever its outcome *)

Lemma keeps_bind W {A B} (p : M A) (f : A -> M B) :
  keeps W p -> (forall a, keeps W (f a)) -> keeps W (bind p f).
Proof.
  intros Kp Kf w H. unfold bind. specialize (Kp w H).
  destruct (p w) as [[a|e] w1]; simpl in Kp.
  - apply Kf. exact Kp.
  - exact Kp.
Qed.

Lemma keeps_Promise_all W qs :
  (forall q, In q qs -> keeps W (sql q)) -> keeps W (Promise_all qs).
Proof.
  induction qs as [|q qs IH]; intros K w H; simpl.
  - exact H.
  - pose proof (K q (or_introl eq_refl) w H) as H1.
    destruct (sql q w) as [r w1]. simpl in H1.
    assert (IH' : keeps W (Promise_all qs)).
    { apply IH. intros q' I. apply K. right. exact I. }
    specialize (IH' w1 H1). destruct (Promise_all qs w1) as [r' w2]. exact IH'.
Qed.

Lemma stragglers_tail j jobs : incl (stragglers jobs) (stragglers (j :: jobs)).
Proof. intros q I. simpl. apply in_app_iff. right. exact I. Qed.

Lemma keeps_settling W slack jobs : forall a,
  (forall q, In q (stragglers jobs) -> keeps W (sql q)) ->
  (forall qs w, incl qs (stragglers jobs) -> W w -> W (defer qs w)) ->
  keeps W (Promise_all_settling slack jobs a).
Proof.
  induction jobs as [|j jobs IH]; intros a K D w H.
  - simpl. destruct a; exact H.
  - assert (IH' : forall a', keeps W (Promise_all_settling slack jobs a')).
    { intros a'. apply IH.
      - intros q I. apply K. apply stragglers_tail. exact I.
      - intros qs w' I. apply D. intros x X. apply stragglers_tail. auto. }
    simpl. destruct a as [|e [|k]], j as [q|]; simpl.
    + pose proof (K q (or_introl eq_refl) w H) as H1.
      destruct (sql q w) as [[u|e] w1]; apply IH'; exact H1.
    + apply D; [|exact H]. apply stragglers_tail.
    + apply D; [|exact H]. apply incl_refl.
    + apply D; [|exact H]. apply incl_refl.
    + apply IH'. apply (K q (or_introl eq_refl) w H).
    + apply D; [|exact H]. apply stragglers_tail.
Qed.

Lemma keeps_flush W qs : forall w,
  (forall q, In q qs -> keeps W (sql q)) -> W w -> W (flush qs w).
Proof.
  induction qs as [|q qs IH]; intros w K H; simpl; [exact H|].
  apply IH.
  - intros q' I. apply K. right. exact I.
  - apply (K q (or_introl eq_refl) w H).
Qed.

Lemma issuable_body m c q : In q (body m c) -> issuable m c q.
Proof. intros I. right. exact I. Qed.

Lemma keeps_seeding W m c :
  (forall q, issuable m c q -> keeps W (sql q)) ->
  (forall qs w, incl qs (stragglers (user_jobs m c)) -> W w -> W (defer qs w)) ->
  keeps W (seeding m c).
Proof.
  intros K D.
  assert (KB : forall q, In q (body m c) -> keeps W (sql q)).
  { intros q I. apply K, issuable_body, I. }
  unfold seeding, seedUsers, seedCustomers, seedInvoices, seedRevenue.
  repeat first
    [ apply keeps_bind; [|intros _]
    | apply keeps_Promise_all; intros q I; apply KB, body_In; tauto
    | apply keeps_settling;
      [intros q I; apply KB, body_In; tauto | exact D]
    | apply K; left; reflexivity
    | apply KB, body_In; tauto ].
Qed.

Lemma keeps_GET W m c :
  (forall q, issuable m c q -> keeps W (sql q)) ->
  (forall qs w, incl qs (stragglers (user_jobs m c)) -> W w -> W (defer qs w)) ->
  forall w, W w -> W (snd (GET m c w)).
Proof.
  intros K D w H. unfold GET.
  pose proof (keeps_seeding W m c K D w H) as H1.
  destruct (seeding m c w) as [[u|e] w1]; simpl in H1; [exact H1|].
  pose proof (K ROLLBACK (or_introl eq_refl) w1 H1) as H2.
  destruct (sql ROLLBACK w1) as [[u|e'] w2]; exact H2.
Qed.

Lemma discard_everywhere P b : everywhere P b -> everywhere P (discard b).
Proof.
  unfold everywhere, discard. intros [A B].
  destruct (tx b) eqn:T; simpl; rewrite ?T; auto.
Qed.

Lemma serve_everywhere P q b :
  (forall d g d' g', execute q d g = (inr d', g') -> P d -> P d') ->
  everywhere P b -> everywhere P (snd (serve q b)).
Proof.
  intros X [A B]. unfold serve.
  destruct (tx b) as [|s|s] eqn:T; destruct q;
    try (destruct (execute _ (data b) (drawn b)) as [[e|d] g] eqn:E);
    unfold everywhere, discard; simpl; rewrite ?T; simpl; auto;
    split; auto; eapply X; eauto.
Qed.

Lemma execute_control q d g : control q = true -> execute q d g = (inr d, g).
Proof. destruct q; simpl; intros H; try discriminate H; reflexivity. Qed.

(** A property of the database that every accepted statement of the call
    preserves holds of the database after the call and of the database a
    rollback would restore, however the call ends. *)
Lemma run_everywhere m c (P : database -> Prop) :
  (forall q d g d' g',
     In q (body m c) -> execute q d g = (inr d', g') -> P d -> P d') ->
  forall w, everywhere P (pg w) -> Forall (issuable m c) (late w) ->
            everywhere P (pg (snd (run m c w))).
Proof.
  intros X w H L.
  set (W := fun w => everywhere P (pg w) /\ Forall (issuable m c) (late w)).
  assert (K : forall q, issuable m c q -> keeps W (sql q)).
  { intros q Iq w0 [A B]. split.
    - rewrite sql_pg. destruct (ttl w0) as [[|n]|];
        try apply discard_everywhere; try apply serve_everywhere; auto;
        intros d g d' g' E; (destruct Iq as [C | I];
        [rewrite (execute_control _ _ _ C) in E; inversion E; subst; auto
        | eapply X; eauto]).
    - rewrite sql_late. exact B. }
  assert (D : forall qs w0, incl qs (stragglers (user_jobs m c)) ->
                            W w0 -> W (defer qs w0)).
  { intros qs w0 I [A B]. split; [exact A|]. simpl.
    apply Forall_app. split; [exact B|]. apply Forall_forall.
    intros q Iq. right. apply body_In. right. right. left. apply I, Iq. }
  assert (G : W (snd (GET m c w))) by (apply keeps_GET; [exact K|exact D|split; auto]).
  unfold run. destruct (GET m c w) as [o w1]. simpl in *.
  destruct G as [A B]. unfold settle.
  assert (F : W (flush (late w1)
                   {| pg := pg w1; ttl := ttl w1; wire := wire w1; late := [] |})).
  { apply keeps_flush.
    - intros q I. apply K. rewrite Forall_forall in B. apply B, I.
    - split; simpl; [exact A | constructor]. }
  exact (proj1 F).
Qed.

Ltac body_cases I :=
  apply body_In in I;
  unfold customer_inserts, invoice_inserts, revenue_inserts in I;
  rewrite user_inserts_In in I; repeat rewrite in_map_iff in I;
  destruct I as [I | [I | [(?i & ?u & ?h & ?N & ?E & I) | [I | [(?x & I & ?J) |
                [I | [(?x & I & ?J) | [I | (?x & I & ?J)]]]]]]]];
  try discriminate I.

Lemma body_user_insert m c id name email password :
  In (INSERT_users id name email password) (body m c) ->
  exists i user,
    nth_error (users m) i = Some user /\
    bcrypt_hash m (User.password user) 10 (salt c i) = Some password /\
    id = User.id user /\ name = User.name user /\ email = User.email user.
Proof.
  intros I. body_cases I. inversion I; subst. eauto 8.
Qed.

Lemma body_customer_insert m c id name email image_url :
  In (INSERT_customers id name email image_url) (body m c) ->
  exists customer, In customer (customers m) /\ id = Customer.id customer.
Proof.
  intros I. body_cases I. inversion I; subst. eauto.
Qed.

Lemma body_revenue_insert m c month revenue0 :
  In (INSERT_revenue month revenue0) (body m c) ->
  exists rev, In rev (revenue m) /\ month = Revenue.month rev.
Proof.
  intros I. body_cases I. inversion I; subst. eauto.
Qed.

Lemma user_insert_in_body m c i user :
  nth_error (users m) i = Some user ->
  Forall (fun j => j <> None) (user_jobs m c) ->
  exists h, In (INSERT_users (User.id user) (User.name user)
                  (User.email user) h) (body m c).
Proof.
  intros N F.
  assert (J : In (hashed m c i user) (user_jobs m c)).
  { apply user_jobs_In. eauto. }
  rewrite Forall_forall in F. specialize (F _ J).
  destruct (hashed m c i user) as [q|] eqn:E; [|congruence].
  destruct (hashed_Some _ _ _ _ _ E) as (h & _ & ->).
  exists h. apply body_In. right. right. left. apply stragglers_In. exact J.
Qed.

Lemma user_row_key q r : user_row_of q r -> user_key q = Some (u_id r).
Proof. destruct q; simpl; try contradiction. intros (-> & _). reflexivity. Qed.

Lemma customer_row_key q r :
  customer_row_of q r -> customer_key q = Some (c_id r).
Proof. destruct q; simpl; try contradiction. intros (-> & _). reflexivity. Qed.

Lemma revenue_row_key q r :
  revenue_row_of q r -> revenue_key q = Some (r_month r).
Proof. destruct q; simpl; try contradiction. intros (-> & _). reflexivity. Qed.

(** A statement whose key is taken leaves the table as it is. *)
Lemma keyed_step_stays {R K} (tbl : database -> option (list R))
  (key : R -> K) row_of key_of create q d g d' g' t :
  keyed_step tbl key row_of key_of create ->
  (forall q r, row_of q r -> key_of q = Some (key r)) ->
  execute q d g = (inr d', g') ->
  tbl d = Some t ->
  (forall k, key_of q = Some k -> In k (map key t)) ->
  tbl d' = Some t.
Proof.
  intros S RK E T In_t. destruct (S q d g d' g' E) as (S1 & _ & S3).
  assert (N : tbl d' <> None) by (apply S3; left; congruence).
  rewrite (rows_Some _ N). f_equal. rewrite T in S1. simpl in S1.
  destruct S1 as [S1 | (r & _ & Rq & Fr)]; [exact S1|].
  exfalso. apply Fr, In_t, RK, Rq.
Qed.

(** C2: after a call that answers 200 on an empty database, [users],
    [customers] and [revenue] hold exactly the keys of the fixture, each
    once; a second call, however it ends, leaves the three tables as the
    first call left them. *)
Theorem keyed_tables_idempotent m c1 c2 w0 b1 w1 o2 w2 :
  pristine w0 ->
  run m c1 w0 = (Returned b1 200, w1) ->
  run m c2 w1 = (o2, w2) ->
  exists tu tc tr,
    (users_tbl (data (pg w1)) = Some tu /\
     customers_tbl (data (pg w1)) = Some tc /\
     revenue_tbl (data (pg w1)) = Some tr) /\
    (NoDup (map u_id tu) /\ NoDup (map c_id tc) /\ NoDup (map r_month tr)) /\
    (forall k, In k (map u_id tu) <->
               exists user, In user (users m) /\ k = Supplied (User.id user)) /\
    (forall k, In k (map c_id tc) <->
               exists customer, In customer (customers m) /\
                                k = Supplied (Customer.id customer)) /\
    (forall k, In k (map r_month tr) <->
               exists rev, In rev (revenue m) /\
                           varchar 4 (Revenue.month rev) = Some k) /\
    (users_tbl (data (pg w2)) = Some tu /\
     customers_tbl (data (pg w2)) = Some tc /\
     revenue_tbl (data (pg w2)) = Some tr).
Proof.
  intros (D & T & L) H1 H2.
  destruct (seeded m c1 w0 b1 w1 T L H1) as (E & T1 & L1 & _ & HJ).
  rewrite D in E.
  destruct (keyed_exec_all _ _ _ _ _ execute_users _ _ _ _ _ E)
    as (eu & U1 & U2 & U3 & U4 & U5).
  destruct (keyed_exec_all _ _ _ _ _ execute_customers _ _ _ _ _ E)
    as (ec & C1 & C2 & C3 & C4 & C5).
  destruct (keyed_exec_all _ _ _ _ _ execute_revenue _ _ _ _ _ E)
    as (er & R1 & R2 & R3 & R4 & R5).
  simpl in U1, C1, R1, U2, C2, R2.
  set (tu := rows (users_tbl (data (pg w1)))) in *.
  set (tc := rows (customers_tbl (data (pg w1)))) in *.
  set (tr := rows (revenue_tbl (data (pg w1)))) in *.
  assert (Su : users_tbl (data (pg w1)) = Some tu).
  { apply rows_Some, U5. right. apply body_In. tauto. }
  assert (Sc : customers_tbl (data (pg w1)) = Some tc).
  { apply rows_Some, C5. right. apply body_In. tauto. }
  assert (Sr : revenue_tbl (data (pg w1)) = Some tr).
  { apply rows_Some, R5. right. apply body_In. tauto. }
  assert (Ku : forall k, In k (map u_id tu) <->
               exists user, In user (users m) /\ k = Supplied (User.id user)).
  { intros k. split.
    - intros I. apply in_map_iff in I. destruct I as (r & <- & I).
      rewrite U1 in I. destruct (U4 r I) as (q & Iq & Rq).
      destruct q; simpl in Rq; try contradiction. destruct Rq as (-> & _).
      apply body_user_insert in Iq.
      destruct Iq as (i & user & N & _ & -> & _).
      exists user. split; [eapply nth_error_In; eassumption | reflexivity].
    - intros (user & I & ->). apply In_nth_error in I. destruct I as (i & N).
      destruct (user_insert_in_body m c1 i user N HJ) as (h & Ib).
      eapply U3; [exact Ib | reflexivity]. }
  assert (Kc : forall k, In k (map c_id tc) <->
               exists customer, In customer (customers m) /\
                                k = Supplied (Customer.id customer)).
  { intros k. split.
    - intros I. apply in_map_iff in I. destruct I as (r & <- & I).
      rewrite C1 in I. destruct (C4 r I) as (q & Iq & Rq).
      destruct q; simpl in Rq; try contradiction. destruct Rq as (-> & _).
      apply body_customer_insert in Iq. destruct Iq as (x & I1 & ->). eauto.
    - intros (x & I & ->).
      apply (C3 (INSERT_customers (Customer.id x) (Customer.name x)
                   (Customer.email x) (Customer.image_url x)));
        [|reflexivity].
      apply body_In. do 4 right. left. unfold customer_inserts.
      apply in_map_iff. eauto. }
  assert (Kr : forall k, In k (map r_month tr) <->
               exists rev, In rev (revenue m) /\
                           varchar 4 (Revenue.month rev) = Some k).
  { intros k. split.
    - intros I. apply in_map_iff in I. destruct I as (r & <- & I).
      rewrite R1 in I. destruct (R4 r I) as (q & Iq & Rq).
      destruct q; simpl in Rq; try contradiction. destruct Rq as (V & _).
      apply body_revenue_insert in Iq. destruct Iq as (x & I1 & ->). eauto.
    - intros (x & I & V).
      apply (R3 (INSERT_revenue (Revenue.month x) (Revenue.revenue x)));
        [|exact V].
      apply body_In. do 8 right. unfold revenue_inserts.
      apply in_map_iff. eauto. }
  exists tu, tc, tr.
  split; [auto|]. split; [repeat split; auto using NoDup_nil|].
  split; [exact Ku|]. split; [exact Kc|]. split; [exact Kr|].
  set (P := fun d => users_tbl d = Some tu /\ customers_tbl d = Some tc /\
                     revenue_tbl d = Some tr).
  assert (X : everywhere P (pg (snd (run m c2 w1)))).
  { apply run_everywhere.
    - intros q d g d' g' Iq Eq (Pu & Pc & Pr). repeat split.
      + eapply (keyed_step_stays users_tbl); eauto using execute_users, user_row_key.
        intros k Kq. destruct q; simpl in Kq; try discriminate Kq.
        inversion Kq; subst. apply body_user_insert in Iq.
        destruct Iq as (i & user & N & _ & -> & _). apply Ku.
        exists user. split; [eapply nth_error_In; eassumption | reflexivity].
      + eapply (keyed_step_stays customers_tbl);
          eauto using execute_customers, customer_row_key.
        intros k Kq. destruct q; simpl in Kq; try discriminate Kq.
        inversion Kq; subst. apply body_customer_insert in Iq.
        destruct Iq as (x & I1 & ->). apply Kc. eauto.
      + eapply (keyed_step_stays revenue_tbl);
          eauto using execute_revenue, revenue_row_key.
        intros k Kq. destruct q; simpl in Kq; try discriminate Kq.
        apply body_revenue_insert in Iq.
        destruct Iq as (x & I1 & ->). apply Kr. eauto.
    - split; [unfold P; auto | rewrite T1; exact I].
    - rewrite L1. constructor. }
  rewrite H2 in X. exact (proj1 X).
Qed.

(** ** Stored passwords *)

Section Passwords.

Variable m : imports.

(** [bcrypt.compare(data, encrypted)]. *)
Variable bcrypt_compare : string -> string -> bool.

(** The hashing primitive is opaque: what it returns verifies against
    the plaintext and differs from it. *)
Hypothesis compare_accepts : forall data rounds salt encrypted,
  bcrypt_hash m data rounds salt = Some encrypted ->
  bcrypt_compare data encrypted = true.
Hypothesis hash_conceals : forall data rounds salt encrypted,
  bcrypt_hash m data rounds salt = Some encrypted -> encrypted <> data.

(** C5: whatever a call stores in [users] is the row of a fixture
    record whose password column holds the ten-round hash of that
    record's plaintext: a value that differs from the plaintext and that
    [bcrypt.compare] accepts for it.  After a call that answers 200 on an
    empty database every fixture record has such a row. *)
Theorem passwords_stored_hashed c w o w' :
  tx (pg w) = Idle -> late w = [] ->
  run m c w = (o, w') ->
  (forall r, In r (rows (users_tbl (data (pg w')))) ->
     In r (rows (users_tbl (data (pg w)))) \/
     exists i user,
       nth_error (users m) i = Some user /\
       u_id r = Supplied (User.id user) /\
       bcrypt_hash m (User.password user) 10 (salt c i) = Some (u_password r) /\
       u_password r <> User.password user /\
       bcrypt_compare (User.password user) (u_password r) = true) /\
  (data (pg w) = empty_database ->
   (exists b, o = Returned b 200) ->
   forall user, In user (users m) ->
     exists r, In r (rows (users_tbl (data (pg w')))) /\
               u_id r = Supplied (User.id user)).
Proof.
  intros T L H. split.
  - set (old := rows (users_tbl (data (pg w)))).
    set (P := fun d => forall r, In r (rows (users_tbl d)) ->
       In r old \/
       exists i user,
         nth_error (users m) i = Some user /\
         u_id r = Supplied (User.id user) /\
         bcrypt_hash m (User.password user) 10 (salt c i) = Some (u_password r) /\
         u_password r <> User.password user /\
         bcrypt_compare (User.password user) (u_password r) = true).
    assert (X : everywhere P (pg (snd (run m c w)))).
    { apply run_everywhere.
      - intros q d g d' g' Iq Eq Pd r Ir.
        destruct (execute_users q d g d' g' Eq) as (S1 & _).
        destruct S1 as [S1 | (r1 & S1 & Rq & _)]; rewrite S1 in Ir.
        + apply Pd, Ir.
        + apply in_app_iff in Ir. destruct Ir as [Ir | [<- | []]].
          * apply Pd, Ir.
          * right. destruct q; simpl in Rq; try contradiction.
            destruct Rq as (Ri & _ & _ & Rp).
            apply body_user_insert in Iq.
            destruct Iq as (i & user & N & Hh & -> & _).
            exists i, user. rewrite Rp. repeat split; auto.
            -- eapply hash_conceals; eassumption.
            -- eapply compare_accepts; eassumption.
      - split; [|rewrite T; exact I]. intros r Ir. left. exact Ir.
      - rewrite L. constructor. }
    rewrite H in X. exact (proj1 X).
  - intros D (b & ->) user Iu.
    destruct (seeded m c w b w' T L H) as (E & _ & _ & _ & HJ).
    destruct (keyed_exec_all _ _ _ _ _ execute_users _ _ _ _ _ E)
      as (eu & _ & _ & U3 & _).
    apply In_nth_error in Iu. destruct Iu as (i & N).
    destruct (user_insert_in_body m c i user N HJ) as (h & Ib).
    specialize (U3 _ _ Ib eq_refl). apply in_map_iff in U3.
    destruct U3 as (r & A & B). eauto.
Qed.

End Passwords.

(** ** The order of the seeding steps *)

Lemma climbs_le lo l hi : climbs lo l hi -> lo <= hi.
Proof.
  revert lo. induction l as [|q l IH]; intros lo H; simpl in H; [exact H|].
  destruct (step_of q) as [s|]; [|auto]. destruct H as [A B].
  apply IH in B. lia.
Qed.

Lemma climbs_weaken lo lo' l hi hi' :
  lo' <= lo -> hi <= hi' -> climbs lo l hi -> climbs lo' l hi'.
Proof.
  revert lo lo'. induction l as [|q l IH]; intros lo lo' A B H; simpl in *.
  - lia.
  - destruct (step_of q) as [s|].
    + destruct H as [H1 H2]. split; [lia|]. eapply IH; [| |exact H2]; lia.
    + eapply IH; eassumption.
Qed.

Lemma climbs_app lo l1 mid l2 hi :
  climbs lo l1 mid -> climbs mid l2 hi -> climbs lo (l1 ++ l2) hi.
Proof.
  revert lo. induction l1 as [|q l1 IH]; intros lo H1 H2; simpl in *.
  - eapply climbs_weaken; [exact H1| |exact H2]. lia.
  - destruct (step_of q) as [s|].
    + destruct H1 as [A B]. split; [exact A | apply IH; assumption].
    + apply IH; assumption.
Qed.

Lemma climbs_flat s l :
  Forall (fun q => step_of q = Some s \/ step_of q = None) l -> climbs s l s.
Proof.
  induction 1 as [|q l [E | E] F IH]; simpl; [lia | |]; rewrite E; auto.
Qed.

Lemma climbs_skip lo l q l' hi :
  step_of q = None -> climbs lo (l ++ l') hi -> climbs lo (l ++ q :: l') hi.
Proof.
  intros N. revert lo. induction l as [|x l IH]; intros lo H; simpl in *.
  - rewrite N. exact H.
  - destruct (step_of x) as [s|].
    + destruct H as [A B]. split; [exact A | apply IH, B].
    + apply IH, H.
Qed.

Lemma climbs_reaches lo l q l' hi b :
  climbs lo (l ++ q :: l') hi -> step_of q = Some b -> lo <= b.
Proof.
  intros H B. revert lo H. induction l as [|x l IH]; intros lo H; simpl in H.
  - rewrite B in H. tauto.
  - destruct (step_of x) as [s|].
    + destruct H as [L H]. apply IH in H. lia.
    + apply IH, H.
Qed.

Lemma climbs_ordered lo hi l1 q1 l2 q2 l3 a b :
  climbs lo (l1 ++ q1 :: l2 ++ q2 :: l3) hi ->
  step_of q1 = Some a -> step_of q2 = Some b -> a <= b.
Proof.
  intros H A B. revert lo H. induction l1 as [|x l1 IH]; intros lo H; simpl in H.
  - rewrite A in H. destruct H as [_ H]. eapply climbs_reaches; eassumption.
  - destruct (step_of x) as [s|].
    + destruct H as [_ H]. eapply IH; eassumption.
    + eapply IH; eassumption.
Qed.

Lemma paced_sql q s : step_of q = Some s \/ step_of q = None -> paced s s (sql q).
Proof.
  intros E w. exists [q], []. rewrite sql_wire, sql_late, app_nil_r.
  repeat split; auto. simpl. destruct E as [-> | ->]; auto.
Qed.

Lemma paced_weaken lo hi lo' hi' {A} (p : M A) :
  lo' <= lo -> hi <= hi' -> paced lo hi p -> paced lo' hi' p.
Proof.
  intros A1 A2 P w. destruct (P w) as (l & l' & W & L & C & O).
  exists l, l'. repeat split; auto. eapply climbs_weaken; eassumption.
Qed.

Lemma paced_bind lo mid hi {A B} (p : M A) (f : A -> M B) :
  mid <= hi ->
  paced lo mid p -> (forall a, paced mid hi (f a)) -> paced lo hi (bind p f).
Proof.
  intros Le Pp Pf w. destruct (Pp w) as (l & l' & W & L & C & O). unfold bind.
  destruct (p w) as [[a|e] w1]; simpl in *.
  - specialize (O a eq_refl). subst l'. rewrite app_nil_r in *.
    destruct (Pf a w1) as (k & k' & W2 & L2 & C2 & O2).
    exists (l ++ k), k'. rewrite W2, W, L2, L, <- !app_assoc.
    repeat split; auto. eapply climbs_app; eassumption.
  - exists l, l'. repeat split; auto; [|discriminate].
    eapply climbs_weaken; [| |exact C]; lia.
Qed.

Lemma Promise_all_wire qs w : wire (snd (Promise_all qs w)) = wire w ++ qs.
Proof.
  revert w. induction qs as [|q qs IH]; intros w; simpl.
  - rewrite app_nil_r. reflexivity.
  - pose proof (sql_wire q w) as W. destruct (sql q w) as [r w1]. simpl in W.
    specialize (IH w1). destruct (Promise_all qs w1) as [r' w2]. simpl in *.
    rewrite IH, W, <- app_assoc. reflexivity.
Qed.

Lemma Promise_all_late qs w : late (snd (Promise_all qs w)) = late w.
Proof.
  revert w. induction qs as [|q qs IH]; intros w; simpl.
  - reflexivity.
  - pose proof (sql_late q w) as W. destruct (sql q w) as [r w1]. simpl in W.
    specialize (IH w1). destruct (Promise_all qs w1) as [r' w2]. simpl in *.
    congruence.
Qed.

Lemma paced_Promise_all qs s :
  Forall (fun q => step_of q = Some s \/ step_of q = None) qs ->
  paced s s (Promise_all qs).
Proof.
  intros F w. exists qs, [].
  rewrite Promise_all_wire, Promise_all_late, !app_nil_r.
  repeat split; auto. apply climbs_flat, F.
Qed.

(** The closures of [Promise_all_settling] issue their statements in
    settling order; those that are not issued stay pending. *)
Lemma settling_trace slack jobs : forall a w,
  exists l l',
    wire (snd (Promise_all_settling slack jobs a w)) = wire w ++ l /\
    late (snd (Promise_all_settling slack jobs a w)) = late w ++ l' /\
    l ++ l' = stragglers jobs /\
    (forall u, fst (Promise_all_settling slack jobs a w) = Ok u -> l' = []).
Proof.
  induction jobs as [|j jobs IH]; intros a w.
  - exists [], []. simpl. destruct a; simpl; rewrite !app_nil_r; auto.
  - assert (Step : forall q a',
              exists l l',
                wire (snd (Promise_all_settling slack jobs a' (snd (sql q w))))
                = wire w ++ l /\
                late (snd (Promise_all_settling slack jobs a' (snd (sql q w))))
                = late w ++ l' /\
                l ++ l' = q :: stragglers jobs /\
                (forall u, fst (Promise_all_settling slack jobs a'
                                  (snd (sql q w))) = Ok u -> l' = [])).
    { intros q a'. destruct (IH a' (snd (sql q w))) as (l & l' & W & L & E & O).
      exists (q :: l), l'. rewrite W, L, sql_wire, sql_late, <- app_assoc.
      simpl. rewrite E. auto. }
    simpl. destruct a as [|e [|k]], j as [q|]; simpl.
    + destruct (sql q w) as [[u|e] w1] eqn:E.
      * specialize (Step q Quiet). rewrite E in Step. exact Step.
      * specialize (Step q (Ringing e slack)). rewrite E in Step. exact Step.
    + exists [], (stragglers jobs). rewrite app_nil_r.
      repeat split; auto. discriminate.
    + exists [], (q :: stragglers jobs). rewrite app_nil_r.
      repeat split; auto. discriminate.
    + exists [], (stragglers jobs). rewrite app_nil_r.
      repeat split; auto. discriminate.
    + apply Step.
    + exists [], (stragglers jobs). rewrite app_nil_r.
      repeat split; auto. discriminate.
Qed.

Lemma paced_settling slack jobs a s :
  Forall (fun q => step_of q = Some s \/ step_of q = None) (stragglers jobs) ->
  paced s s (Promise_all_settling slack jobs a).
Proof.
  intros F w. destruct (settling_trace slack jobs a w) as (l & l' & W & L & E & O).
  exists l, l'. repeat split; auto. rewrite E. apply climbs_flat, F.
Qed.

Lemma user_inserts_step m c :
  Forall (fun q => step_of q = Some 0 \/ step_of q = None)
    (stragglers (user_jobs m c)).
Proof.
  apply Forall_forall. intros q I. apply user_inserts_In in I.
  destruct I as (i & u & h & _ & _ & ->). left. reflexivity.
Qed.

Lemma customer_inserts_step m :
  Forall (fun q => step_of q = Some 1 \/ step_of q = None) (customer_inserts m).
Proof.
  apply Forall_forall. intros q I. apply in_map_iff in I.
  destruct I as (x & <- & _). left. reflexivity.
Qed.

Lemma invoice_inserts_step m :
  Forall (fun q => step_of q = Some 2 \/ step_of q = None) (invoice_inserts m).
Proof.
  apply Forall_forall. intros q I. apply in_map_iff in I.
  destruct I as (x & <- & _). left. reflexivity.
Qed.

Lemma revenue_inserts_step m :
  Forall (fun q => step_of q = Some 3 \/ step_of q = None) (revenue_inserts m).
Proof.
  apply Forall_forall. intros q I. apply in_map_iff in I.
  destruct I as (x & <- & _). left. reflexivity.
Qed.

Lemma seedUsers_paced m c : paced 0 0 (seedUsers m c).
Proof.
  unfold seedUsers.
  apply (paced_bind 0 0 0); [lia | apply paced_sql; auto | intros _].
  apply (paced_bind 0 0 0); [lia | apply paced_sql; auto | intros _].
  apply paced_settling, user_inserts_step.
Qed.

Lemma seedCustomers_paced m : paced 1 1 (seedCustomers m).
Proof.
  unfold seedCustomers.
  apply (paced_bind 1 1 1); [lia | apply paced_sql; auto | intros _].
  apply (paced_bind 1 1 1); [lia | apply paced_sql; auto | intros _].
  apply paced_Promise_all, customer_inserts_step.
Qed.

Lemma seedInvoices_paced m : paced 2 2 (seedInvoices m).
Proof.
  unfold seedInvoices.
  apply (paced_bind 2 2 2); [lia | apply paced_sql; auto | intros _].
  apply (paced_bind 2 2 2); [lia | apply paced_sql; auto | intros _].
  apply paced_Promise_all, invoice_inserts_step.
Qed.

Lemma seedRevenue_paced m : paced 3 3 (seedRevenue m).
Proof.
  unfold seedRevenue.
  apply (paced_bind 3 3 3); [lia | apply paced_sql; auto | intros _].
  apply paced_Promise_all, revenue_inserts_step.
Qed.

Lemma seeding_paced m c : paced 0 3 (seeding m c).
Proof.
  unfold seeding.
  apply (paced_bind 0 0 3); [lia | apply paced_sql; auto | intros _].
  apply (paced_bind 0 0 3); [lia | apply seedUsers_paced | intros _].
  apply (paced_bind 0 1 3); [lia | |intros _].
  { eapply paced_weaken; [| |apply seedCustomers_paced]; lia. }
  apply (paced_bind 1 2 3); [lia | |intros _].
  { eapply paced_weaken; [| |apply seedInvoices_paced]; lia. }
  apply (paced_bind 2 3 3); [lia | |intros _].
  { eapply paced_weaken; [| |apply seedRevenue_paced]; lia. }
  apply paced_sql. auto.
Qed.

Lemma flush_wire qs w : wire (flush qs w) = wire w ++ qs.
Proof.
  revert w. induction qs as [|q qs IH]; intros w; simpl.
  - rewrite app_nil_r. reflexivity.
  - rewrite IH, sql_wire, <- app_assoc. reflexivity.
Qed.

(** C4: the statements a call hands to the connection, those of its
    pending closures included, come in the order users, customers,
    invoices, revenue: a statement of a later step never precedes one of an
    earlier step, so no customer statement follows an invoice statement;
    a call that answers 200 has issued the whole script in this order. *)
Theorem steps_in_order m c w o w' :
  late w = [] ->
  run m c w = (o, w') ->
  exists issued,
    wire w' = wire w ++ issued /\
    (forall l1 q1 l2 q2 l3 a b,
       issued = l1 ++ q1 :: l2 ++ q2 :: l3 ->
       step_of q1 = Some a -> step_of q2 = Some b -> a <= b) /\
    (forall l1 q1 l2 q2 l3,
       issued = l1 ++ q1 :: l2 ++ q2 :: l3 ->
       step_of q1 = Some 2 -> step_of q2 <> Some 1) /\
    (forall b, o = Returned b 200 -> issued = script m c).
Proof.
  intros L H.
  assert (X : exists issued, wire w' = wire w ++ issued /\ climbs 0 issued 3).
  { unfold run, GET in H.
    destruct (seeding_paced m c w) as (l & l' & W & La & C & O).
    destruct (seeding m c w) as [[u|e] w1]; simpl in *.
    - inversion H; subst. rewrite (O u eq_refl) in *.
      rewrite app_nil_r in *. rewrite settle_nothing by congruence.
      exists l. auto.
    - assert (S : settle (snd (sql ROLLBACK w1)) = w').
      { destruct (sql ROLLBACK w1) as [[u|e'] w2]; inversion H; reflexivity. }
      exists (l ++ ROLLBACK :: l'). split.
      + rewrite <- S. unfold settle. rewrite flush_wire. simpl.
        rewrite sql_wire, sql_late, W, La, L, <- !app_assoc. reflexivity.
      + apply climbs_skip; [reflexivity | exact C]. }
  destruct X as (issued & W & C). exists issued.
  split; [exact W|]. split; [|split].
  - intros l1 q1 l2 q2 l3 a b E A B. rewrite E in C.
    eapply climbs_ordered; eassumption.
  - intros l1 q1 l2 q2 l3 E A B. rewrite E in C.
    pose proof (climbs_ordered _ _ _ _ _ _ _ _ _ C A B). lia.
  - intros b ->. apply run_200 in H; [|exact L].
    apply seeding_plays in H. destruct H as (_ & W' & _).
    rewrite W' in W. apply app_inv_head in W. congruence.
Qed.

(** ** What the rollback undoes *)

Lemma keeps_shields W {A} (p : M A) : keeps W p -> shields W p.
Proof.
  intros K w e w' H E. pose proof (K w H) as K'. rewrite E in K'. exact K'.
Qed.

Lemma shields_bind W {A B} (p : M A) (f : A -> M B) :
  keeps W p -> (forall a, shields W (f a)) -> shields W (bind p f).
Proof.
  intros K S w e w' H E. apply bind_Throw in E.
  destruct E as [E | (a & w1 & E1 & E2)].
  - pose proof (K w H) as K'. rewrite E in K'. exact K'.
  - pose proof (K w H) as K'. rewrite E1 in K'. eapply S; eassumption.
Qed.

Lemma revertible_sql d0 q : control q = false -> keeps (revertible d0) (sql q).
Proof.
  intros C w H. unfold revertible in *. rewrite sql_pg.
  unfold sql. destruct (ttl w) as [[|n]|] eqn:T.
  - simpl. right. right. unfold discard.
    destruct H as [H | [H | (H1 & H2 & _)]]; rewrite ?H, ?H1; simpl; auto.
  - destruct H as [H | [H | (_ & _ & H)]]; [| |discriminate H];
      unfold serve; rewrite H; destruct q; try discriminate C;
      try destruct (execute _ _ _) as [[e|d] g]; simpl; auto.
  - destruct H as [H | [H | (_ & _ & H)]]; [| |discriminate H];
      unfold serve; rewrite H; destruct q; try discriminate C;
      try destruct (execute _ _ _) as [[e|d] g]; simpl; auto.
Qed.

Lemma revertible_BEGIN w :
  tx (pg w) = Idle -> revertible (data (pg w)) (snd (sql BEGIN w)).
Proof.
  intros T. unfold revertible, sql.
  destruct (ttl w) as [[|n]|]; unfold serve, discard; rewrite T; simpl; auto.
Qed.

Lemma revertible_COMMIT d0 : shields (revertible d0) (sql COMMIT).
Proof.
  intros w e w' H E. unfold sql in E.
  assert (S : fst (serve COMMIT (pg w)) = inr tt).
  { unfold serve. destruct (tx (pg w)); reflexivity. }
  destruct (ttl w) as [[|n]|] eqn:T;
    try (destruct (serve COMMIT (pg w)) as [r b]; simpl in S; subst r;
         discriminate E).
  inversion E; subst. unfold revertible, discard. simpl.
  destruct H as [H | [H | (H1 & H2 & _)]]; rewrite ?H, ?H1; simpl; auto.
Qed.

Lemma revertible_ROLLBACK d0 w :
  revertible d0 w ->
  data (pg (snd (sql ROLLBACK w))) = d0 /\ tx (pg (snd (sql ROLLBACK w))) = Idle.
Proof.
  intros H. rewrite sql_pg.
  destruct (ttl w) as [[|n]|] eqn:T;
    (destruct H as [H | [H | (H1 & H2 & H3)]]; [| |try discriminate H3]);
    unfold serve, discard; rewrite ?H, ?H1; simpl; auto.
Qed.

Lemma seeding_shielded m c w e w' :
  tx (pg w) = Idle -> seeding m c w = (Throw e, w') ->
  revertible (data (pg w)) w'.
Proof.
  intros T E. unfold seeding in E.
  pose proof (revertible_BEGIN w T) as B.
  apply bind_Throw in E. destruct E as [E | (a & w1 & E1 & E)].
  { rewrite E in B. exact B. }
  rewrite E1 in B. simpl in B.
  assert (KB : forall q, In q (body m c) ->
                         keeps (revertible (data (pg w))) (sql q)).
  { intros q I. apply revertible_sql.
    pose proof (body_plain m c) as F. rewrite Forall_forall in F. auto. }
  assert (Sh : shields (revertible (data (pg w)))
                 (seedUsers m c ;; seedCustomers m ;; seedInvoices m ;;
                  seedRevenue m ;; sql COMMIT)).
  { apply shields_bind; [|intros _].
    { unfold seedUsers.
      apply keeps_bind; [apply KB, body_In; tauto | intros _].
      apply keeps_bind; [apply KB, body_In; tauto | intros _].
      apply keeps_settling.
      - intros q I. apply KB, body_In. tauto.
      - intros qs w0 _ H. exact H. }
    apply shields_bind; [|intros _].
    { unfold seedCustomers.
      apply keeps_bind; [apply KB, body_In; tauto | intros _].
      apply keeps_bind; [apply KB, body_In; tauto | intros _].
      apply keeps_Promise_all. intros q I. apply KB, body_In. tauto. }
    apply shields_bind; [|intros _].
    { unfold seedInvoices.
      apply keeps_bind; [apply KB, body_In; tauto | intros _].
      apply keeps_bind; [apply KB, body_In; tauto | intros _].
      apply keeps_Promise_all. intros q I. apply KB, body_In. tauto. }
    apply shields_bind; [|intros _].
    { unfold seedRevenue.
      apply keeps_bind; [apply KB, body_In; tauto | intros _].
      apply keeps_Promise_all. intros q I. apply KB, body_In. tauto. }
    apply revertible_COMMIT. }
  exact (Sh w1 e w' B E).
Qed.

(** C1 at a failing input.  [users] already holds a row with the
    address [amy@x.com].  The fixture has a user with that address under a
    new id and a second user; the [INSERT] of the first is rejected and its
    rejection reaches the client before the hash of the second has
    settled.  The handler rolls back and answers 500, and the database is
    as it was; the closure of the second user is still pending, and when
    it runs, its [INSERT] is committed on its own: after the failed call
    [users] has a row that was not there before. *)
Theorem rollback_misses_pending_insert :
  let before := data (pg seeded_world) in
  let bob := {| u_id := Supplied "u3"; u_name := "Bob";
                u_email := "bob@x.com";
                u_password := "$2b$10$hunter2" |}%string in
  fst (GET rival prompt seeded_world)
  = Returned (Json_error (Postgres (unique_violation "users_email_key"))) 500 /\
  data (pg (snd (GET rival prompt seeded_world))) = before /\
  late (snd (GET rival prompt seeded_world))
  = [INSERT_users "u3" "Bob" "bob@x.com" "$2b$10$hunter2"] /\
  ~ In bob (rows (users_tbl before)) /\
  In bob (rows (users_tbl (data (pg (snd (run rival prompt seeded_world)))))) /\
  data (pg (snd (run rival prompt seeded_world))) <> before.
Proof.
  cbv zeta. split; [vm_compute; reflexivity|].
  split; [vm_compute; reflexivity|]. split; [vm_compute; reflexivity|].
  split; [|split].
  - vm_compute. intros [H | []]. discriminate H.
  - vm_compute. right. left. reflexivity.
  - vm_compute. discriminate.
Qed.

(** ** The theorems at sample inputs *)

Lemma GET_raises_when_rollback_fails_witness :
  let w1 := snd (seeding sample prompt brittle_world) in
  let w2 := snd (sql ROLLBACK w1) in
  seeding sample prompt brittle_world = (Throw ConnectionLost, w1) /\
  sql ROLLBACK w1 = (Throw ConnectionLost, w2) /\
  GET sample prompt brittle_world = (Raised ConnectionLost, w2) /\
  ConnectionLost = ConnectionLost /\
  forall body status,
    fst (GET sample prompt brittle_world) <> Returned body status.
Proof.
  cbv zeta.
  assert (H1 : seeding sample prompt brittle_world
               = (Throw ConnectionLost,
                  snd (seeding sample prompt brittle_world)))
    by (vm_compute; reflexivity).
  assert (H2 : sql ROLLBACK (snd (seeding sample prompt brittle_world))
               = (Throw ConnectionLost,
                  snd (sql ROLLBACK (snd (seeding sample prompt brittle_world)))))
    by (vm_compute; reflexivity).
  split; [exact H1|]. split; [exact H2|].
  exact (GET_raises_when_rollback_fails sample prompt brittle_world
           ConnectionLost _ ConnectionLost _ H1 H2).
Defined.

(** C6 at a failing input.  The connection breaks after three
    statements: the [INSERT] of the user is rejected, so a seeding step
    fails, and the [ROLLBACK] of the [catch] block is rejected as well.
    The handler raises and returns no response, where the claim (and the
    comment above the handler) has it return the error with status 500. *)
Theorem GET_returns_nothing_when_rollback_fails :
  (exists w1, seeding sample prompt brittle_world = (Throw ConnectionLost, w1)) /\
  fst (GET sample prompt brittle_world) = Raised ConnectionLost /\
  (forall body status,
     fst (GET sample prompt brittle_world) <> Returned body status).
Proof.
  split; [|split].
  - eexists. vm_compute. reflexivity.
  - vm_compute. reflexivity.
  - intros body status. vm_compute. discriminate.
Qed.



Lemma GET_email_conflict_fails_witness :
  exists w',
    GET {| bcrypt_hash := sample_hash;
           users := [ {| User.id := "u2"; User.name := "Amy";
                         User.email := "amy@x.com";
                         User.password := "secret" |} ]%string;
           customers := []; invoices := []; revenue := [] |}
        prompt seeded_world
    = (Returned (Json_error (Postgres (unique_violation "users_email_key"))) 500,
       w') /\
    data (pg w') = data (pg seeded_world) /\ late w' = late seeded_world /\
    wire w' = wire seeded_world
              ++ [BEGIN; CREATE_EXTENSION_uuid_ossp; CREATE_TABLE_users;
                  INSERT_users "u2" "Amy" "amy@x.com" "$2b$10$secret"; ROLLBACK].
Proof.
  eapply (GET_email_conflict_fails _ prompt seeded_world
            {| User.id := "u2"; User.name := "Amy"; User.email := "amy@x.com";
               User.password := "secret" |} "$2b$10$secret").
  - reflexivity.
  - reflexivity.
  - vm_compute. discriminate.
  - vm_compute. reflexivity.
  - vm_compute. reflexivity.
  - vm_compute. reflexivity.
  - vm_compute. reflexivity.
  - vm_compute. reflexivity.
Defined.

Lemma blank_world_pristine : pristine blank_world.
Proof. repeat split. Qed.

Lemma sample_run :
  run sample prompt blank_world
  = (Returned (Json_message "Database seeded successfully"%string) 200,
     seeded_world).
Proof. vm_compute. reflexivity. Qed.

Lemma sample_rerun :
  run sample prompt seeded_world
  = (Returned (Json_message "Database seeded successfully"%string) 200,
     reseeded_world).
Proof. vm_compute. reflexivity. Qed.

Lemma invoices_reference_customers_witness :
  exists ti tc,
    invoices_tbl (data (pg seeded_world)) = Some ti /\
    customers_tbl (data (pg seeded_world)) = Some tc /\
    forall r, In r ti -> exists r', In r' tc /\ i_customer_id r = c_id r'.
Proof.
  apply (invoices_reference_customers sample prompt blank_world
           (Json_message "Database seeded successfully"%string) seeded_world).
  - exact blank_world_pristine.
  - intros invoice [<- | []]. eexists. split; [left; reflexivity | reflexivity].
  - exact sample_run.
Defined.

Lemma invoices_duplicated_witness :
  exists first second,
    invoices_tbl (data (pg seeded_world)) = Some first /\
    invoices_tbl (data (pg reseeded_world)) = Some (first ++ second) /\
    List.length first = List.length (invoices sample) /\
    List.length second = List.length (invoices sample) /\
    List.length (first ++ second) = 2 * List.length (invoices sample) /\
    Forall2 invoice_row_of (invoice_inserts sample) first /\
    Forall2 invoice_row_of (invoice_inserts sample) second /\
    map invoice_fields second = map invoice_fields first /\
    NoDup (map i_id (first ++ second)).
Proof.
  exact (invoices_duplicated sample prompt prompt blank_world _ seeded_world _
           reseeded_world blank_world_pristine sample_run sample_rerun).
Defined.

Lemma keyed_tables_idempotent_witness :
  exists tu tc tr,
    (users_tbl (data (pg seeded_world)) = Some tu /\
     customers_tbl (data (pg seeded_world)) = Some tc /\
     revenue_tbl (data (pg seeded_world)) = Some tr) /\
    (NoDup (map u_id tu) /\ NoDup (map c_id tc) /\ NoDup (map r_month tr)) /\
    (forall k, In k (map u_id tu) <->
               exists user, In user (users sample) /\
                            k = Supplied (User.id user)) /\
    (forall k, In k (map c_id tc) <->
               exists customer, In customer (customers sample) /\
                                k = Supplied (Customer.id customer)) /\
    (forall k, In k (map r_month tr) <->
               exists rev, In rev (revenue sample) /\
                           varchar 4 (Revenue.month rev) = Some k) /\
    (users_tbl (data (pg reseeded_world)) = Some tu /\
     customers_tbl (data (pg reseeded_world)) = Some tc /\
     revenue_tbl (data (pg reseeded_world)) = Some tr).
Proof.
  exact (keyed_tables_idempotent sample prompt prompt blank_world _ seeded_world
           _ reseeded_world blank_world_pristine sample_run sample_rerun).
Defined.

Lemma sample_compare_accepts data rounds salt encrypted :
  bcrypt_hash sample data rounds salt = Some encrypted ->
  sample_compare data encrypted = true.
Proof.
  simpl. unfold sample_hash, sample_compare. intros H. inversion H.
  apply String.eqb_refl.
Qed.

Lemma sample_hash_conceals data rounds salt encrypted :
  bcrypt_hash sample data rounds salt = Some encrypted -> encrypted <> data.
Proof.
  simpl. unfold sample_hash. intros H E. subst encrypted.
  inversion H as [H1]. apply (f_equal String.length) in H1.
  simpl in H1. lia.
Qed.

Lemma passwords_stored_hashed_witness :
  (forall r, In r (rows (users_tbl (data (pg seeded_world)))) ->
     In r (rows (users_tbl (data (pg blank_world)))) \/
     exists i user,
       nth_error (users sample) i = Some user /\
       u_id r = Supplied (User.id user) /\
       bcrypt_hash sample (User.password user) 10 (salt prompt i)
       = Some (u_password r) /\
       u_password r <> User.password user /\
       sample_compare (User.password user) (u_password r) = true) /\
  (data (pg blank_world) = empty_database ->
   (exists b, Returned (Json_message "Database seeded successfully"%string) 200
              = Returned b 200) ->
   forall user, In user (users sample) ->
     exists r, In r (rows (users_tbl (data (pg seeded_world)))) /\
               u_id r = Supplied (User.id user)).
Proof.
  apply (passwords_stored_hashed sample sample_compare sample_compare_accepts
           sample_hash_conceals prompt blank_world).
  - reflexivity.
  - reflexivity.
  - exact sample_run.
Defined.

Lemma steps_in_order_witness :
  exists issued,
    wire seeded_world = wire blank_world ++ issued /\
    (forall l1 q1 l2 q2 l3 a b,
       issued = l1 ++ q1 :: l2 ++ q2 :: l3 ->
       step_of q1 = Some a -> step_of q2 = Some b -> a <= b) /\
    (forall l1 q1 l2 q2 l3,
       issued = l1 ++ q1 :: l2 ++ q2 :: l3 ->
       step_of q1 = Some 2 -> step_of q2 <> Some 1) /\
    (forall b, Returned (Json_message "Database seeded successfully"%string) 200
               = Returned b 200 -> issued = script sample prompt).
Proof.
  apply (steps_in_order sample prompt blank_world).
  - reflexivity.
  - exact sample_run.
Defined.

(** ** Further properties of the handler *)

(** *** The session after a call *)

Lemma script_commits m c b b' :
  tx b = Idle -> serve_all (script m c) b = Some b' -> tx b' = Idle.
Proof.
  intros T S.
  change (script m c) with (BEGIN :: (body m c ++ [COMMIT])) in S.
  cbn [serve_all] in S. rewrite (serve_BEGIN_Idle _ T) in S.
  rewrite serve_all_app in S.
  destruct (serve_all (body m c) _) as [b1|] eqn:E; [|discriminate S].
  apply serve_all_in_tx with (saved := data b) in E;
    [|reflexivity|apply body_plain].
  destruct E as [_ T1].
  cbn [serve_all] in S. rewrite (serve_COMMIT_InTransaction _ _ T1) in S.
  inversion S. reflexivity.
Qed.

Lemma serve_stays_idle q b :
  control q = false -> tx b = Idle -> tx (snd (serve q b)) = Idle.
Proof.
  intros C T. unfold serve. rewrite T.
  destruct q; try discriminate C; cbv beta iota;
    destruct (execute _ (data b) (drawn b)) as [[e|d] g]; reflexivity.
Qed.

Lemma sql_stays_idle q w :
  control q = false -> tx (pg w) = Idle -> tx (pg (snd (sql q w))) = Idle.
Proof.
  intros C T. rewrite sql_pg.
  destruct (ttl w) as [[|n]|]; try (apply serve_stays_idle; assumption).
  unfold discard. rewrite T. exact T.
Qed.

Lemma flush_stays_idle qs : forall w,
  Forall (fun q => control q = false) qs -> tx (pg w) = Idle ->
  tx (pg (flush qs w)) = Idle.
Proof.
  induction qs as [|q qs IH]; intros w F T; simpl; [exact T|].
  inversion F; subst. apply IH; [assumption|]. apply sql_stays_idle; assumption.
Qed.

Lemma user_inserts_plain m c :
  Forall (fun q => control q = false) (stragglers (user_jobs m c)).
Proof.
  apply Forall_forall. intros q I. apply user_inserts_In in I.
  destruct I as (i & u & h & _ & _ & ->). reflexivity.
Qed.

Lemma after_users_late m w :
  late (snd ((seedCustomers m ;; seedInvoices m ;; seedRevenue m ;;
              sql COMMIT) w)) = late w.
Proof.
  unfold seedCustomers, seedInvoices, seedRevenue, bind.
  repeat match goal with
    | |- context [sql ?q ?x] =>
        let r := fresh "r" in let y := fresh "w" in
        let Hl := fresh "L" in
        pose proof (sql_late q x) as Hl;
        destruct (sql q x) as [[r|r] y]; simpl in *;
        try congruence
    | |- context [Promise_all ?qs ?x] =>
        let r := fresh "r" in let y := fresh "w" in
        let Hl := fresh "L" in
        pose proof (Promise_all_late qs x) as Hl;
        destruct (Promise_all qs x) as [[r|r] y]; simpl in *;
        try congruence
    end.
Qed.

(** What the [try] block leaves pending is what the user closures leave
    pending. *)
Lemma seeding_late m c w :
  late (snd (seeding m c w)) = late w \/
  exists w3, late w3 = late w /\
             late (snd (seeding m c w))
             = late (snd (Promise_all_settling (lag c) (user_jobs m c)
                            Quiet w3)).
Proof.
  destruct (seeding m c w) as [r w'] eqn:E. cbn [snd].
  revert E. unfold seeding, seedUsers, bind.
  pose proof (sql_late BEGIN w) as L1.
  destruct (sql BEGIN w) as [[u|e] w1]; cbn [snd] in L1;
    [|intros E; inversion E; subst; left; exact L1].
  pose proof (sql_late CREATE_EXTENSION_uuid_ossp w1) as L2.
  destruct (sql CREATE_EXTENSION_uuid_ossp w1) as [[u1|e] w2]; cbn [snd] in L2;
    [|intros E; inversion E; subst; left; congruence].
  pose proof (sql_late CREATE_TABLE_users w2) as L3.
  destruct (sql CREATE_TABLE_users w2) as [[u2|e] w3]; cbn [snd] in L3;
    [|intros E; inversion E; subst; left; congruence].
  intros E. right. exists w3. split; [congruence|].
  destruct (Promise_all_settling (lag c) (user_jobs m c) Quiet w3)
    as [[u3|e] w4]; cbn [snd]; [|inversion E; reflexivity].
  pose proof (after_users_late m w4) as A.
  unfold bind in A. rewrite E in A. exact A.
Qed.

Lemma GET_late_seeding m c w :
  late (snd (GET m c w)) = late (snd (seeding m c w)).
Proof.
  unfold GET. destruct (seeding m c w) as [[u|e] w1]; simpl; [reflexivity|].
  rewrite <- (sql_late ROLLBACK w1).
  destruct (sql ROLLBACK w1) as [[u|e'] w2]; reflexivity.
Qed.

(** What a call leaves pending are [INSERT]s of user closures. *)
Lemma GET_late m c w :
  exists l', late (snd (GET m c w)) = late w ++ l' /\
             incl l' (stragglers (user_jobs m c)).
Proof.
  rewrite GET_late_seeding.
  destruct (seeding_late m c w) as [E | (w3 & L & E)]; rewrite E.
  - exists []. rewrite app_nil_r. split; [reflexivity | intros x []].
  - destruct (settling_trace (lag c) (user_jobs m c) Quiet w3)
      as (l & l' & _ & L' & S & _).
    exists l'. split; [congruence|]. intros x I. rewrite <- S.
    apply in_app_iff. right. exact I.
Qed.

Lemma GET_leaves_session_idle m c w :
  tx (pg w) = Idle -> tx (pg (snd (GET m c w))) = Idle.
Proof.
  intros T. unfold GET.
  destruct (seeding m c w) as [[u|e] w1] eqn:E; simpl.
  - apply seeding_plays in E. destruct E as (S & _).
    eapply script_commits; eassumption.
  - pose proof (seeding_shielded m c w e w1 T E) as R.
    apply revertible_ROLLBACK in R.
    destruct (sql ROLLBACK w1) as [[u|e'] w2]; simpl in *; tauto.
Qed.

(** X4: however a call ends (a response, or an exception when the
    connection is lost), and once its pending closures have run, the
    session of the shared client is outside any transaction again. *)
Theorem run_leaves_session_idle m c w :
  tx (pg w) = Idle -> late w = [] -> tx (pg (snd (run m c w))) = Idle.
Proof.
  intros T L. unfold run.
  pose proof (GET_leaves_session_idle m c w T) as T1.
  destruct (GET_late m c w) as (l' & L1 & I).
  destruct (GET m c w) as [o w1]. simpl in *.
  unfold settle. apply flush_stays_idle; [|exact T1].
  rewrite L1, L. simpl. apply Forall_forall. intros q Iq.
  pose proof (user_inserts_plain m c) as F. rewrite Forall_forall in F.
  apply F, I, Iq.
Qed.

Lemma run_leaves_session_idle_witness :
  tx (pg (snd (run rival prompt seeded_world))) = Idle.
Proof.
  apply run_leaves_session_idle; vm_compute; reflexivity.
Defined.

(** *** All or nothing when no closure is left behind *)

Lemma settling_no_late slack jobs : forall a w,
  Forall (fun j => j <> None) jobs ->
  match a with
  | Quiet => List.length jobs <= slack
  | Ringing _ k => List.length jobs <= k
  end ->
  late (snd (Promise_all_settling slack jobs a w)) = late w.
Proof.
  induction jobs as [|j jobs IH]; intros a w F B.
  - simpl. destruct a; reflexivity.
  - inversion F as [|? ? Hj F']; subst.
    destruct j as [q|]; [|congruence]. simpl in B |- *.
    destruct a as [|e [|k]]; [| lia |].
    + pose proof (sql_late q w) as L.
      destruct (sql q w) as [[u|e] w1]; simpl in L; rewrite <- L;
        apply IH; auto; simpl; lia.
    + rewrite <- (sql_late q w). apply IH; auto. simpl. lia.
Qed.

Lemma length_enqueue {A} k (a : A) l :
  List.length (enqueue k a l) = S (List.length l).
Proof.
  induction l as [|[k' a'] l IH]; simpl; [reflexivity|].
  destruct (k' <=? k); simpl; congruence.
Qed.

Lemma length_by_finish {A} (l : list (nat * A)) :
  List.length (by_finish l) = List.length l.
Proof.
  unfold by_finish.
  assert (G : forall acc,
            List.length (fold_left (fun acc ka => enqueue (fst ka) (snd ka) acc)
                           l acc) = List.length l + List.length acc).
  { induction l as [|x l IH]; intros acc; simpl; [reflexivity|].
    rewrite IH, length_enqueue. lia. }
  rewrite G. simpl. lia.
Qed.

Lemma length_user_jobs m c :
  List.length (user_jobs m c) = List.length (users m).
Proof.
  unfold user_jobs.
  rewrite length_map, length_by_finish, length_map, length_combine, length_seq.
  lia.
Qed.

Lemma user_jobs_hashed m c :
  (forall i user, nth_error (users m) i = Some user ->
                  bcrypt_hash m (User.password user) 10 (salt c i) <> None) ->
  Forall (fun j => j <> None) (user_jobs m c).
Proof.
  intros H. apply Forall_forall. intros j I. apply user_jobs_In in I.
  destruct I as (i & u & N & ->). specialize (H i u N). unfold hashed.
  destruct (bcrypt_hash m (User.password u) 10 (salt c i)); congruence.
Qed.

Lemma run_restores_when_settled m c w b :
  tx (pg w) = Idle -> late (snd (GET m c w)) = [] ->
  fst (run m c w) = Returned b 500 ->
  data (pg (snd (run m c w))) = data (pg w).
Proof.
  intros T L1 N.
  unfold run in *. destruct (GET m c w) as [o w1] eqn:G. simpl in *.
  rewrite settle_nothing by exact L1.
  unfold GET in G.
  destruct (seeding m c w) as [[u|e] w2] eqn:E.
  - inversion G as [[Ho Hw]]. rewrite <- Ho in N. discriminate N.
  - pose proof (seeding_shielded m c w e w2 T E) as R.
    apply revertible_ROLLBACK in R.
    destruct (sql ROLLBACK w2) as [[u|e'] w3]; inversion G; subst;
      simpl in R; tauto.
Qed.

(** X2: when every hash succeeds and the rejection of a query reaches the
    client only after all hashes have settled, no closure is left pending
    and a call that answers 500 leaves the database exactly as it found
    it. *)
Theorem run_all_or_nothing m c w b :
  tx (pg w) = Idle -> late w = [] ->
  (forall i user, nth_error (users m) i = Some user ->
                  bcrypt_hash m (User.password user) 10 (salt c i) <> None) ->
  List.length (users m) <= lag c ->
  fst (run m c w) = Returned b 500 ->
  late (snd (GET m c w)) = [] /\
  data (pg (snd (run m c w))) = data (pg w).
Proof.
  intros T L H B N.
  assert (L1 : late (snd (GET m c w)) = []).
  { rewrite GET_late_seeding.
    destruct (seeding_late m c w) as [E | (w3 & L3 & E)]; rewrite E;
      [exact L|].
    rewrite settling_no_late; [congruence | apply user_jobs_hashed, H|].
    rewrite length_user_jobs. exact B. }
  split; [exact L1 | eapply run_restores_when_settled; eassumption].
Qed.

(** *** Rows are only ever added *)

Lemma extends_refl d : extends d d.
Proof.
  repeat split; try (exists []; rewrite app_nil_r; reflexivity); auto.
Qed.

Lemma extends_trans d0 d1 d2 : extends d0 d1 -> extends d1 d2 -> extends d0 d2.
Proof.
  intros ((a1 & A1) & (a2 & A2) & (a3 & A3) & (a4 & A4) & A5 & A6 & A7 & A8 & A9)
         ((b1 & B1) & (b2 & B2) & (b3 & B3) & (b4 & B4) & B5 & B6 & B7 & B8 & B9).
  repeat split; auto.
  - exists (a1 ++ b1). rewrite B1, A1, app_assoc. reflexivity.
  - exists (a2 ++ b2). rewrite B2, A2, app_assoc. reflexivity.
  - exists (a3 ++ b3). rewrite B3, A3, app_assoc. reflexivity.
  - exists (a4 ++ b4). rewrite B4, A4, app_assoc. reflexivity.
Qed.

Ltac grown :=
  first [ exists []; rewrite app_nil_r; reflexivity
        | eexists; reflexivity ].

Lemma execute_extends q d g d' g' :
  execute q d g = (inr d', g') -> extends d d'.
Proof.
  intros H. destruct q; simpl in H; split_execute H; inversion H; subst;
    clear H; unfold extends; simpl;
    repeat match goal with E : _ = Some _ |- _ => rewrite E end;
    repeat match goal with E : _ = None |- _ => rewrite E end;
    simpl; repeat split; try grown; auto; try discriminate.
Qed.

(** X5: a call never removes or rewrites a row and never drops a table:
    whatever its outcome, each table afterwards holds the rows it held
    before, in their order, followed by the rows the call added. *)
Theorem run_keeps_rows m c w :
  tx (pg w) = Idle -> late w = [] ->
  extends (data (pg w)) (data (pg (snd (run m c w)))).
Proof.
  intros T L.
  assert (X : everywhere (extends (data (pg w))) (pg (snd (run m c w)))).
  { apply run_everywhere.
    - intros q d g d' g' _ E P. eapply extends_trans; [exact P|].
      eapply execute_extends. exact E.
    - split; [apply extends_refl | rewrite T; exact I].
    - rewrite L. constructor. }
  exact (proj1 X).
Qed.

Lemma run_keeps_rows_witness :
  extends (data (pg seeded_world))
    (data (pg (snd (run rival prompt seeded_world)))).
Proof. apply run_keeps_rows; vm_compute; reflexivity. Defined.

(** *** Unique keys stay unique *)

Lemma has_user_email_In k t : has_user_email k t = true <-> In k (map u_email t).
Proof.
  unfold has_user_email. rewrite existsb_exists, in_map_iff.
  split; intros (r & A & B).
  - exists r. apply String.eqb_eq in B. auto.
  - exists r. split; [exact B | apply String.eqb_eq; exact A].
Qed.

Lemma NoDup_snoc {A} (l : list A) x : NoDup l -> ~ In x l -> NoDup (l ++ [x]).
Proof.
  intros N F. apply NoDup_app; auto.
  - repeat constructor. intros [].
  - intros y I [<- | []]. exact (F I).
Qed.

Lemma execute_unique q d g d' g' :
  execute q d g = (inr d', g') -> unique_keys d -> unique_keys d'.
Proof.
  intros H (U1 & U2 & U3 & U4 & U5).
  destruct q; simpl in H; split_execute H; inversion H; subst; clear H;
    unfold unique_keys; simpl;
    repeat match goal with E : _ = Some _ |- _ => rewrite E in * end;
    repeat match goal with E : _ = None |- _ => rewrite E in * end;
    simpl in *; repeat split; auto using NoDup_nil;
    rewrite map_app; simpl; apply NoDup_snoc; auto.
  - eapply not_true_In; [apply has_user_id_In | assumption].
  - eapply not_true_In; [apply has_user_email_In | assumption].
  - eapply not_true_In; [apply has_invoice_id_In | assumption].
  - eapply not_true_In; [apply has_customer_id_In | assumption].
  - eapply not_true_In; [apply has_month_In | assumption].
Qed.

(** X6: the keys the schema declares unique stay unique through a call,
    whatever its outcome: user ids and e-mail addresses, customer ids,
    invoice ids and revenue months never come to occur twice. *)
Theorem run_keeps_keys_unique m c w :
  tx (pg w) = Idle -> late w = [] ->
  unique_keys (data (pg w)) ->
  unique_keys (data (pg (snd (run m c w)))).
Proof.
  intros T L U.
  assert (X : everywhere unique_keys (pg (snd (run m c w)))).
  { apply run_everywhere.
    - intros q d g d' g' _ E P. eapply execute_unique; eassumption.
    - split; [exact U | rewrite T; exact I].
    - rewrite L. constructor. }
  exact (proj1 X).
Qed.

Lemma run_keeps_keys_unique_witness :
  unique_keys (data (pg (snd (run rival prompt seeded_world)))).
Proof.
  apply run_keeps_keys_unique; try (vm_compute; reflexivity).
  vm_compute. repeat split; repeat constructor; simpl; intuition discriminate.
Defined.

(** *** When the seeding succeeds *)

Lemma replays_sql q : replays (sql q) [q].
Proof.
  intros w b' T S. simpl in S. unfold sql. rewrite T.
  destruct (serve q (pg w)) as [[e|[]] b]; [discriminate S|].
  inversion S; subst. eexists. split; [reflexivity|]. simpl. auto.
Qed.

Lemma replays_seq p1 p2 l1 l2 :
  replays p1 l1 -> replays p2 l2 -> replays (p1 ;; p2) (l1 ++ l2).
Proof.
  intros R1 R2 w b' T S. rewrite serve_all_app in S.
  destruct (serve_all l1 (pg w)) as [b1|] eqn:E; [|discriminate S].
  destruct (R1 w b1 T E) as (w1 & P1 & <- & T1).
  destruct (R2 w1 b' T1 S) as (w2 & P2 & B2 & T2).
  exists w2. unfold bind. rewrite P1. auto.
Qed.

Lemma replays_Promise_all qs : replays (Promise_all qs) qs.
Proof.
  induction qs as [|q qs IH]; intros w b' T S; simpl in *.
  - inversion S. exists w. auto.
  - destruct (serve q (pg w)) as [[e|[]] b1] eqn:E; [discriminate S|].
    destruct (replays_sql q w b1 T) as (w1 & P1 & <- & T1).
    { simpl. rewrite E. reflexivity. }
    destruct (IH w1 b' T1 S) as (w2 & P2 & B2 & T2).
    rewrite P1, P2. exists w2. auto.
Qed.

Lemma replays_settling slack jobs :
  Forall (fun j => j <> None) jobs ->
  replays (Promise_all_settling slack jobs Quiet) (stragglers jobs).
Proof.
  induction 1 as [|[q|] jobs H F IH]; intros w b' T S; simpl in *.
  - inversion S. exists w. auto.
  - destruct (serve q (pg w)) as [[e|[]] b1] eqn:E; [discriminate S|].
    destruct (replays_sql q w b1 T) as (w1 & P1 & <- & T1).
    { simpl. rewrite E. reflexivity. }
    rewrite P1. apply IH; assumption.
  - congruence.
Qed.

Lemma seeding_replays m c :
  Forall (fun j => j <> None) (user_jobs m c) ->
  replays (seeding m c) (script m c).
Proof.
  intros F. unfold script, body. repeat rewrite <- app_assoc. unfold seeding.
  apply replays_seq; [apply replays_sql|].
  apply replays_seq.
  { apply (replays_seq _ _ [_] (_ :: _)); [apply replays_sql|].
    apply (replays_seq _ _ [_] _); [apply replays_sql|].
    apply replays_settling, F. }
  apply replays_seq.
  { apply (replays_seq _ _ [_] (_ :: _)); [apply replays_sql|].
    apply (replays_seq _ _ [_] _); [apply replays_sql|].
    apply replays_Promise_all. }
  apply replays_seq.
  { apply (replays_seq _ _ [_] (_ :: _)); [apply replays_sql|].
    apply (replays_seq _ _ [_] _); [apply replays_sql|].
    apply replays_Promise_all. }
  apply replays_seq; [|apply replays_sql].
  apply (replays_seq _ _ [_] _); [apply replays_sql | apply replays_Promise_all].
Qed.

Lemma serve_accepts q b saved d' g' :
  tx b = InTransaction saved -> control q = false ->
  execute q (data b) (drawn b) = (inr d', g') ->
  serve q b = (inr tt, {| data := d'; tx := InTransaction saved; drawn := g' |}).
Proof.
  intros T C E. unfold serve. rewrite T.
  destruct q; try discriminate C; cbv beta iota; rewrite E; reflexivity.
Qed.

Lemma serve_all_accepts qs : forall b saved d' g',
  tx b = InTransaction saved ->
  Forall (fun q => control q = false) qs ->
  exec_all qs (data b) (drawn b) = Some (d', g') ->
  serve_all qs b
  = Some {| data := d'; tx := InTransaction saved; drawn := g' |}.
Proof.
  induction qs as [|q qs IH]; intros b saved d' g' T F E; simpl in *.
  - inversion E; subst. destruct b; simpl in *; subst. reflexivity.
  - inversion F; subst.
    destruct (execute q (data b) (drawn b)) as [[e|d1] g1] eqn:X;
      [discriminate E|].
    rewrite (serve_accepts q b saved d1 g1 T H1 X).
    apply IH; auto.
Qed.

Lemma exec_all_app l1 l2 d g :
  exec_all (l1 ++ l2) d g =
  match exec_all l1 d g with
  | Some (d', g') => exec_all l2 d' g'
  | None => None
  end.
Proof.
  revert d g. induction l1 as [|q l1 IH]; intros d g; simpl.
  - reflexivity.
  - destruct (execute q d g) as [[e|d1] g1]; [reflexivity | apply IH].
Qed.

Lemma ready_extends d d' q : extends d d' -> ready d q -> ready d' q.
Proof.
  intros (_ & _ & _ & _ & A & B & C & D & _). destruct q; simpl; auto.
Qed.

Lemma stems_same m d d' :
  users_tbl d' = users_tbl d -> stems m d -> stems m d'.
Proof. unfold stems. intros ->. auto. Qed.

(** A statement of the call whose table exists is accepted when the
    fixture is well formed and [users] stems from it. *)
Lemma execute_accepts m c q d g :
  well_formed m c -> In q (body m c) -> stems m d -> ready d q ->
  exists d' g', execute q d g = (inr d', g') /\ stems m d'.
Proof.
  intros (Wu & Wh & We & Wc & Wi & Wr) Iq St Rd.
  body_cases Iq; subst q; simpl in Rd |- *.
  - eexists _, _. split; [reflexivity|]. apply (stems_same m d); auto.
  - eexists _, _. split; [reflexivity|].
    destruct (users_tbl d) eqn:E; [exact St|].
    intros r []. 
  - apply nth_error_In in N.
    destruct (users_tbl d) as [t|] eqn:T; [|congruence].
    destruct (varchar 255 (User.name u)) as [name'|] eqn:V;
      [|exfalso; exact (proj2 (proj2 (proj2 (proj2 (Wu u N)))) V)].
    destruct (has_user_id (Supplied (User.id u)) t) eqn:Hid.
    { eexists _, _. split; [reflexivity | exact St]. }
    destruct (has_user_email (User.email u) t) eqn:Hem.
    { exfalso. apply has_user_email_In, in_map_iff in Hem.
      destruct Hem as (r & Er & Ir).
      unfold stems in St. rewrite T in St. destruct (St r Ir) as (u2 & I2 & A & B).
      assert (X : User.id u2 = User.id u) by (apply We; congruence).
      assert (Y : has_user_id (Supplied (User.id u)) t = true).
      { apply has_user_id_In, in_map_iff. exists r. split; congruence. }
      congruence. }
    eexists _, _. split; [reflexivity|].
    intros r Ir. simpl in Ir. apply in_app_iff in Ir.
    destruct Ir as [Ir | [<- | []]].
    + apply St. rewrite T. exact Ir.
    + exists u. simpl. auto.
  - eexists _, _. split; [reflexivity|].
    apply (stems_same m d); [|exact St]. destruct (customers_tbl d); reflexivity.
  - destruct (customers_tbl d) as [t|] eqn:T; [|congruence].
    destruct (Wc x J) as (_ & _ & _ & _ & A & B & C).
    destruct (varchar 255 (Customer.name x)); [|congruence].
    destruct (varchar 255 (Customer.email x)); [|congruence].
    destruct (varchar 255 (Customer.image_url x)); [|congruence].
    destruct (has_customer_id _ t); eexists _, _;
      (split; [reflexivity | apply (stems_same m d); auto]).
  - eexists _, _. split; [reflexivity|].
    apply (stems_same m d); [|exact St]. destruct (invoices_tbl d); reflexivity.
  - destruct (invoices_tbl d) as [t|] eqn:T; [|congruence].
    destruct (Wi x J) as (_ & _ & _ & A & B).
    destruct (int4 (Invoice.amount x)); [|congruence].
    destruct (varchar 255 (Invoice.status x)); [|congruence].
    destruct (has_invoice_id _ t); eexists _, _;
      (split; [reflexivity | apply (stems_same m d); auto]).
  - eexists _, _. split; [reflexivity|].
    apply (stems_same m d); [|exact St]. destruct (revenue_tbl d); reflexivity.
  - destruct (revenue_tbl d) as [t|] eqn:T; [|congruence].
    destruct (Wr x J) as (_ & A & B).
    destruct (int4 (Revenue.revenue x)); [|congruence].
    destruct (varchar 4 (Revenue.month x)); [|congruence].
    destruct (has_month _ t); eexists _, _;
      (split; [reflexivity | apply (stems_same m d); auto]).
Qed.

Lemma exec_all_accepts m c qs :
  well_formed m c -> (forall q, In q qs -> In q (body m c)) ->
  forall d g, stems m d -> (forall q, In q qs -> ready d q) ->
  exists d' g', exec_all qs d g = Some (d', g') /\ stems m d' /\ extends d d'.
Proof.
  intros W. induction qs as [|q qs IH]; intros B d g St Rd; simpl.
  - exists d, g. auto using extends_refl.
  - destruct (execute_accepts m c q d g W) as (d1 & g1 & E & St1); auto.
    { apply B. left. reflexivity. }
    { apply Rd. left. reflexivity. }
    rewrite E. pose proof (execute_extends _ _ _ _ _ E) as X.
    destruct (IH (fun q' I => B q' (or_intror I)) d1 g1 St1) as (d' & g' & E' & St' & X').
    { intros q' I. eapply ready_extends; [exact X|]. apply Rd. right. exact I. }
    exists d', g'. split; [exact E'|]. split; [exact St'|].
    eapply extends_trans; eassumption.
Qed.

Lemma exec_all_creates qs : forall d g d' g',
  exec_all qs d g = Some (d', g') ->
  (In CREATE_TABLE_users qs -> users_tbl d' <> None) /\
  (In CREATE_TABLE_customers qs -> customers_tbl d' <> None) /\
  (In CREATE_TABLE_invoices qs -> invoices_tbl d' <> None) /\
  (In CREATE_TABLE_revenue qs -> revenue_tbl d' <> None).
Proof.
  induction qs as [|q qs IH]; intros d g d' g' E; simpl in E.
  - repeat split; intros [].
  - destruct (execute q d g) as [[e|d1] g1] eqn:X; [discriminate E|].
    destruct (IH _ _ _ _ E) as (A & B & C & D).
    assert (Y : extends d1 d').
    { clear - E. revert d1 g1 E. induction qs as [|q qs IH]; intros d1 g1 E;
        simpl in E.
      - inversion E. apply extends_refl.
      - destruct (execute q d1 g1) as [[e|d2] g2] eqn:X; [discriminate E|].
        eapply extends_trans; [eapply execute_extends; exact X | eauto]. }
    destruct Y as (_ & _ & _ & _ & Y1 & Y2 & Y3 & Y4 & _).
    repeat split; (intros [-> | I]; [|auto]); simpl in X; inversion X; subst.
    + apply Y1. destruct (users_tbl d) eqn:Z; simpl; congruence.
    + apply Y2. destruct (customers_tbl d) eqn:Z; simpl; congruence.
    + apply Y3. destruct (invoices_tbl d) eqn:Z; simpl; congruence.
    + apply Y4. destruct (revenue_tbl d) eqn:Z; simpl; congruence.
Qed.

(** One seeding function's statements: the schema statements [pre], then
    the [INSERT]s [ins] into the table [pre] creates. *)
Lemma table_script_accepts m c pre ins :
  well_formed m c ->
  (forall q, In q (pre ++ ins) -> In q (body m c)) ->
  (forall q d, In q pre -> ready d q) ->
  (forall d q, In q ins ->
     (In CREATE_TABLE_users pre -> users_tbl d <> None) /\
     (In CREATE_TABLE_customers pre -> customers_tbl d <> None) /\
     (In CREATE_TABLE_invoices pre -> invoices_tbl d <> None) /\
     (In CREATE_TABLE_revenue pre -> revenue_tbl d <> None) ->
     ready d q) ->
  forall d g, stems m d ->
  exists d' g', exec_all (pre ++ ins) d g = Some (d', g') /\ stems m d' /\
                extends d d'.
Proof.
  intros W B Rp Ri d g St.
  destruct (exec_all_accepts m c pre W) with (d := d) (g := g)
    as (d1 & g1 & E1 & St1 & X1); auto.
  { intros q I. apply B, in_app_iff. left. exact I. }
  pose proof (exec_all_creates _ _ _ _ _ E1) as Cr.
  destruct (exec_all_accepts m c ins W) with (d := d1) (g := g1)
    as (d2 & g2 & E2 & St2 & X2); auto.
  { intros q I. apply B, in_app_iff. right. exact I. }
  exists d2, g2. rewrite exec_all_app, E1. split; [exact E2|].
  split; [exact St2 | eapply extends_trans; eassumption].
Qed.

Lemma body_accepts m c d g :
  well_formed m c -> stems m d ->
  exists d' g', exec_all (body m c) d g = Some (d', g') /\ stems m d' /\
                extends d d'.
Proof.
  intros W St. unfold body.
  assert (Bu : forall q, In q (users_script m c) -> In q (body m c))
    by (intros q I; unfold body; repeat rewrite in_app_iff; tauto).
  assert (Bc : forall q, In q (customers_script m) -> In q (body m c))
    by (intros q I; unfold body; repeat rewrite in_app_iff; tauto).
  assert (Bi : forall q, In q (invoices_script m) -> In q (body m c))
    by (intros q I; unfold body; repeat rewrite in_app_iff; tauto).
  assert (Br : forall q, In q (revenue_script m) -> In q (body m c))
    by (intros q I; unfold body; repeat rewrite in_app_iff; tauto).
  destruct (table_script_accepts m c
              [CREATE_EXTENSION_uuid_ossp; CREATE_TABLE_users]
              (stragglers (user_jobs m c)) W) with (d := d) (g := g)
    as (d1 & g1 & E1 & S1 & X1); auto.
  { intros q d0 [<- | [<- | []]]; exact I. }
  { intros d0 q I (A & _). apply user_inserts_In in I.
    destruct I as (i & u & h & _ & _ & ->). simpl. apply A. simpl. auto. }
  destruct (table_script_accepts m c
              [CREATE_EXTENSION_uuid_ossp; CREATE_TABLE_customers]
              (customer_inserts m) W) with (d := d1) (g := g1)
    as (d2 & g2 & E2 & S2 & X2); auto.
  { intros q d0 [<- | [<- | []]]; exact I. }
  { intros d0 q I (_ & A & _). apply in_map_iff in I.
    destruct I as (x & <- & _). simpl. apply A. simpl. auto. }
  destruct (table_script_accepts m c
              [CREATE_EXTENSION_uuid_ossp; CREATE_TABLE_invoices]
              (invoice_inserts m) W) with (d := d2) (g := g2)
    as (d3 & g3 & E3 & S3 & X3); auto.
  { intros q d0 [<- | [<- | []]]; exact I. }
  { intros d0 q I (_ & _ & A & _). apply in_map_iff in I.
    destruct I as (x & <- & _). simpl. apply A. simpl. auto. }
  destruct (table_script_accepts m c [CREATE_TABLE_revenue]
              (revenue_inserts m) W) with (d := d3) (g := g3)
    as (d4 & g4 & E4 & S4 & X4); auto.
  { intros q d0 [<- | []]; exact I. }
  { intros d0 q I (_ & _ & _ & A). apply in_map_iff in I.
    destruct I as (x & <- & _). simpl. apply A. simpl. auto. }
  exists d4, g4.
  unfold users_script, customers_script, invoices_script, revenue_script.
  rewrite exec_all_app, E1, exec_all_app, E2, exec_all_app, E3.
  split; [exact E4|]. split; [exact S4|].
  eauto using extends_trans.
Qed.

Lemma seeding_succeeds m c w :
  well_formed m c -> stems m (data (pg w)) ->
  tx (pg w) = Idle -> ttl w = None ->
  exists w',
    seeding m c w = (Ok tt, w') /\
    stems m (data (pg w')) /\ tx (pg w') = Idle /\ ttl w' = None /\
    late w' = late w /\ extends (data (pg w)) (data (pg w')).
Proof.
  intros W St T L.
  destruct (body_accepts m c (data (pg w)) (drawn (pg w)) W St)
    as (d' & g' & E & St' & X).
  assert (S : serve_all (script m c) (pg w)
              = Some {| data := d'; tx := Idle; drawn := g' |}).
  { change (script m c) with (BEGIN :: (body m c ++ [COMMIT])).
    cbn [serve_all]. rewrite (serve_BEGIN_Idle _ T), serve_all_app.
    rewrite (serve_all_accepts (body m c) _ (data (pg w)) d' g');
      [|reflexivity|apply body_plain|exact E].
    cbn [serve_all].
    rewrite (serve_COMMIT_InTransaction _ (data (pg w))); reflexivity. }
  destruct W as (_ & Wh & _).
  destruct (seeding_replays m c (user_jobs_hashed m c Wh) w _ L S)
    as (w' & P & B & L').
  exists w'. split; [exact P|].
  pose proof (seeding_plays m c w tt w' P) as (_ & _ & La).
  rewrite B. simpl. auto 10.
Qed.


Lemma deployed_well_formed : well_formed deployed prompt.
Proof.
  split; [|split; [|split; [|split; [|split]]]].
  - intros user [<- | []].
    repeat split; try (vm_compute; discriminate); vm_compute; reflexivity ||
      (simpl; lia).
  - intros i user _. simpl. unfold sample_hash. discriminate.
  - intros u1 u2 [<- | []] [<- | []] _. reflexivity.
  - intros x [<- | []]. vm_compute. repeat split; discriminate.
  - intros x [<- | []]. vm_compute. repeat split; discriminate.
  - intros x [<- | []]. vm_compute. repeat split; discriminate.
Qed.

Lemma stems_empty m : stems m empty_database.
Proof. intros r []. Qed.


Lemma run_succeeds m c w :
  well_formed m c -> stems m (data (pg w)) ->
  tx (pg w) = Idle -> ttl w = None -> late w = [] ->
  exists w',
    run m c w = (seeded_successfully, w') /\
    stems m (data (pg w')) /\ tx (pg w') = Idle /\ ttl w' = None /\
    late w' = [] /\ extends (data (pg w)) (data (pg w')).
Proof.
  intros W St T L La.
  destruct (seeding_succeeds m c w W St T L)
    as (w' & P & St' & T' & L' & La' & X).
  exists w'. unfold run, GET. rewrite P.
  rewrite settle_nothing by congruence.
  split; [reflexivity|]. split; [exact St'|]. split; [exact T'|].
  split; [exact L'|]. split; [congruence | exact X].
Qed.

(** X10: seeding is repeatable.  Starting from a database whose [users]
    rows stem from the fixture (an empty one, say), every request of a
    series answers 200, as long as the connection is sound and the fixture
    is well formed for each request. *)
Theorem requests_all_succeed m cs : forall w,
  Forall (well_formed m) cs -> stems m (data (pg w)) ->
  tx (pg w) = Idle -> ttl w = None -> late w = [] ->
  Forall (fun o => o = seeded_successfully) (fst (requests m cs w)).
Proof.
  induction cs as [|c cs IH]; intros w F St T L La; simpl.
  - constructor.
  - inversion F; subst.
    destruct (run_succeeds m c w) as (w1 & R & St1 & T1 & L1 & La1 & _); auto.
    rewrite R. specialize (IH w1 H2 St1 T1 L1 La1).
    destruct (requests m cs w1) as [os w2]. simpl in *.
    constructor; [reflexivity | exact IH].
Qed.

Lemma requests_all_succeed_witness :
  Forall (fun o => o = seeded_successfully)
    (fst (requests deployed [prompt; prompt; prompt] blank_world)).
Proof.
  apply requests_all_succeed.
  - repeat (constructor; [exact deployed_well_formed|]). constructor.
  - exact (stems_empty deployed).
  - reflexivity.
  - reflexivity.
  - reflexivity.
Defined.

(** *** Invoices, call after call *)

Lemma ids_below_seq g t ext :
  ids_below g t ->
  map i_id ext = map Generated (seq g (List.length ext)) ->
  ids_below (g + List.length ext) (t ++ ext) /\
  (forall r, In r ext -> ~ In (i_id r) (map i_id t)).
Proof.
  intros B E. split.
  - intros r I. apply in_app_iff in I. destruct I as [I | I].
    + destruct (B r I) as (k & A & L). exists k. split; [exact A | lia].
    + apply (in_map i_id) in I. rewrite E in I. apply in_map_iff in I.
      destruct I as (k & <- & I). apply in_seq in I.
      exists k. split; [reflexivity | lia].
  - intros r I J. apply (in_map i_id) in I. rewrite E in I.
    apply in_map_iff in I. destruct I as (k & K & I). apply in_seq in I.
    apply in_map_iff in J. destruct J as (r' & A & J).
    destruct (B r' J) as (k' & A' & L). rewrite <- K, A' in A.
    inversion A. lia.
Qed.

(** X12: from any database whose invoice ids were all drawn earlier, a
    call that answers 200 appends to [invoices] one row per invoice of the
    fixture, each under an id that was not in the table, and keeps what was
    there; the condition on the ids holds again afterwards. *)
Theorem invoices_appended m c w b w' :
  tx (pg w) = Idle -> late w = [] ->
  ids_below (drawn (pg w)) (rows (invoices_tbl (data (pg w)))) ->
  run m c w = (Returned b 200, w') ->
  exists added,
    invoices_tbl (data (pg w'))
    = Some (rows (invoices_tbl (data (pg w))) ++ added) /\
    Forall2 invoice_row_of (invoice_inserts m) added /\
    List.length added = List.length (invoices m) /\
    (forall r, In r added ->
       ~ In (i_id r) (map i_id (rows (invoices_tbl (data (pg w)))))) /\
    NoDup (map i_id added) /\
    ids_below (drawn (pg w')) (rows (invoices_tbl (data (pg w')))).
Proof.
  intros T L B H.
  destruct (seeded m c w b w' T L H) as (E & _).
  destruct (exec_all_invoices _ _ _ _ _ E B) as (added & A1 & A2 & A3 & A4 & A5).
  rewrite body_invoice_inserts in A2.
  destruct (ids_below_seq _ _ _ B A3) as (B1 & B2).
  exists added. split; [|split; [exact A2|split; [|split; [exact B2|split]]]].
  - rewrite <- A1. apply rows_Some, A5. right. apply body_In. tauto.
  - apply Forall2_length in A2. unfold invoice_inserts in A2.
    rewrite length_map in A2. congruence.
  - rewrite A3. apply Injective_map_NoDup;
      [exact Generated_injective | apply seq_NoDup].
  - rewrite A1, A4. exact B1.
Qed.

Lemma invoices_appended_witness :
  exists added,
    invoices_tbl (data (pg reseeded_world))
    = Some (rows (invoices_tbl (data (pg seeded_world))) ++ added) /\
    Forall2 invoice_row_of (invoice_inserts sample) added /\
    List.length added = List.length (invoices sample) /\
    (forall r, In r added ->
       ~ In (i_id r) (map i_id (rows (invoices_tbl (data (pg seeded_world)))))) /\
    NoDup (map i_id added) /\
    ids_below (drawn (pg reseeded_world))
      (rows (invoices_tbl (data (pg reseeded_world)))).
Proof.
  apply (invoices_appended sample prompt seeded_world
           (Json_message "Database seeded successfully"%string)).
  - vm_compute. reflexivity.
  - vm_compute. reflexivity.
  - intros r I. vm_compute in I. destruct I as [<- | []].
    exists 0. split; [reflexivity | vm_compute; lia].
  - exact sample_rerun.
Defined.

Lemma requests_grow m cs : forall w,
  Forall (well_formed m) cs -> stems m (data (pg w)) ->
  tx (pg w) = Idle -> ttl w = None -> late w = [] ->
  ids_below (drawn (pg w)) (rows (invoices_tbl (data (pg w)))) ->
  List.length (rows (invoices_tbl (data (pg (snd (requests m cs w))))))
  = List.length (rows (invoices_tbl (data (pg w))))
    + List.length cs * List.length (invoices m).
Proof.
  induction cs as [|c cs IH]; intros w F St T L La B; simpl.
  - lia.
  - inversion F; subst.
    destruct (run_succeeds m c w) as (w1 & R & St1 & T1 & L1 & La1 & _); auto.
    rewrite R.
    destruct (seeded m c w _ w1 T La R) as (E & _).
    destruct (exec_all_invoices _ _ _ _ _ E B) as (added & A1 & A2 & A3 & A4 & _).
    rewrite body_invoice_inserts in A2.
    destruct (ids_below_seq _ _ _ B A3) as (B1 & _).
    assert (B' : ids_below (drawn (pg w1)) (rows (invoices_tbl (data (pg w1))))).
    { rewrite A1, A4. exact B1. }
    specialize (IH w1 H2 St1 T1 L1 La1 B').
    destruct (requests m cs w1) as [os w2]. simpl in *.
    rewrite IH, A1, length_app.
    apply Forall2_length in A2. unfold invoice_inserts in A2.
    rewrite length_map in A2. lia.
Qed.

(** X13: on a sound connection, a series of requests with a well-formed
    fixture, started on an empty database, leaves [invoices] with as many
    rows as there were requests times the invoices of the fixture. *)
Theorem requests_multiply_invoices m cs w :
  Forall (well_formed m) cs -> pristine w -> ttl w = None ->
  List.length (rows (invoices_tbl (data (pg (snd (requests m cs w))))))
  = List.length cs * List.length (invoices m).
Proof.
  intros F (D & T & La) L.
  rewrite (requests_grow m cs w F); auto; rewrite D.
  - reflexivity.
  - apply stems_empty.
  - apply ids_below_nil.
Qed.

Lemma requests_multiply_invoices_witness :
  List.length
    (rows (invoices_tbl
             (data (pg (snd (requests deployed [prompt; prompt; prompt]
                               blank_world))))))
  = 3 * List.length (invoices deployed).
Proof.
  apply (requests_multiply_invoices deployed [prompt; prompt; prompt]).
  - repeat (constructor; [exact deployed_well_formed|]). constructor.
  - exact blank_world_pristine.
  - reflexivity.
Defined.

(** *** What the handler reports *)



Lemma sql_ttl_lost q w : ttl w = Some 0 -> ttl (snd (sql q w)) = Some 0.
Proof. intros L. unfold sql. rewrite L. reflexivity. Qed.




Lemma settling_ttl_lost slack jobs : forall a w,
  ttl w = Some 0 -> ttl (snd (Promise_all_settling slack jobs a w)) = Some 0.
Proof.
  induction jobs as [|j jobs IH]; intros a w L; simpl.
  - destruct a; exact L.
  - destruct a as [|e [|k]], j as [q|]; simpl; try exact L.
    + pose proof (sql_ttl_lost q w L) as L1.
      destruct (sql q w) as [[u|e] w1]; apply IH; exact L1.
    + apply IH, sql_ttl_lost, L.
Qed.












(** *** The schema after a successful call *)

Lemma exec_all_extends qs : forall d g d' g',
  exec_all qs d g = Some (d', g') -> extends d d'.
Proof.
  induction qs as [|q qs IH]; intros d g d' g' E; simpl in E.
  - inversion E. apply extends_refl.
  - destruct (execute q d g) as [[e|d1] g1] eqn:X; [discriminate E|].
    eapply extends_trans; [eapply execute_extends; exact X | eauto].
Qed.

(** X11: whatever was there before, after a call that answers 200 the
    extension is installed and the four tables exist. *)
Theorem schema_ensured m c w b w' :
  tx (pg w) = Idle -> late w = [] ->
  run m c w = (Returned b 200, w') ->
  uuid_ossp (data (pg w')) = true /\
  users_tbl (data (pg w')) <> None /\
  customers_tbl (data (pg w')) <> None /\
  invoices_tbl (data (pg w')) <> None /\
  revenue_tbl (data (pg w')) <> None.
Proof.
  intros T L H. destruct (seeded m c w b w' T L H) as (E & _).
  pose proof (exec_all_creates _ _ _ _ _ E) as (A & B & C & D).
  split.
  - unfold body, users_script in E. simpl in E.
    apply exec_all_extends in E.
    destruct E as (_ & _ & _ & _ & _ & _ & _ & _ & X). apply X.
    destruct (users_tbl (data (pg w))); reflexivity.
  - repeat split; [apply A | apply B | apply C | apply D]; apply body_In; tauto.
Qed.

Lemma schema_ensured_witness :
  uuid_ossp (data (pg seeded_world)) = true /\
  users_tbl (data (pg seeded_world)) <> None /\
  customers_tbl (data (pg seeded_world)) <> None /\
  invoices_tbl (data (pg seeded_world)) <> None /\
  revenue_tbl (data (pg seeded_world)) <> None.
Proof.
  apply (schema_ensured sample prompt blank_world
           (Json_message "Database seeded successfully"%string)).
  - reflexivity.
  - reflexivity.
  - exact sample_run.
Defined.

(** *** Nothing but fixture data is stored *)






(** *** Failures past the users step *)

Lemma run_all_or_nothing_witness :
  late (snd (GET rival patient seeded_world)) = [] /\
  data (pg (snd (run rival patient seeded_world))) = data (pg seeded_world).
Proof.
  eapply run_all_or_nothing.
  - vm_compute. reflexivity.
  - vm_compute. reflexivity.
  - intros i user _. simpl. unfold sample_hash. discriminate.
  - simpl. lia.
  - vm_compute. reflexivity.
Defined.

Lemma climbs_bound lo l hi q s :
  climbs lo l hi -> In q l -> step_of q = Some s -> s <= hi.
Proof.
  revert lo. induction l as [|x l IH]; intros lo C I E; simpl in *.
  - contradiction.
  - destruct I as [-> | I].
    + rewrite E in C. destruct C as [_ C]. apply climbs_le in C. exact C.
    + destruct (step_of x); [destruct C as [_ C]|]; eapply IH; eassumption.
Qed.

(** The [try] block leaves nothing pending, or it has not gone past the
    users step. *)
Lemma seeding_pending m c w :
  late (snd (seeding m c w)) = late w \/
  exists l l',
    wire (snd (seeding m c w)) = wire w ++ l /\
    late (snd (seeding m c w)) = late w ++ l' /\
    climbs 0 (l ++ l') 0.
Proof.
  destruct (seeding m c w) as [r w'] eqn:E. cbn [snd].
  revert E. unfold seeding, bind.
  pose proof (sql_late BEGIN w) as L1. pose proof (sql_wire BEGIN w) as W1.
  destruct (sql BEGIN w) as [[u|e] w1]; cbn [snd] in L1, W1;
    [|intros E; inversion E; subst; left; exact L1].
  destruct (seedUsers_paced m c w1) as (l & l' & W & L & C & O).
  destruct (seedUsers m c w1) as [[u1|e] w2]; cbn [snd fst] in *; intros E.
  - left. rewrite (O u1 eq_refl), app_nil_r in L.
    pose proof (after_users_late m w2) as A. unfold bind in A.
    rewrite E in A. cbn [snd] in A. congruence.
  - right. inversion E; subst. exists (BEGIN :: l), l'.
    rewrite W, W1, L, L1, <- app_assoc. auto.
Qed.

(** X3: a failure past the users step is undone in full.  When a call
    answers 500 after it got as far as creating [customers], no closure is
    pending and the database afterwards is the database before. *)
Theorem run_atomic_past_users m c w b issued :
  tx (pg w) = Idle -> late w = [] ->
  fst (run m c w) = Returned b 500 ->
  wire (snd (run m c w)) = wire w ++ issued ->
  In CREATE_TABLE_customers issued ->
  late (snd (GET m c w)) = [] /\
  data (pg (snd (run m c w))) = data (pg w).
Proof.
  intros T L N W I.
  assert (L1 : late (snd (GET m c w)) = []).
  { rewrite GET_late_seeding.
    destruct (seeding_pending m c w) as [E | (l & l' & Wl & Ll & C)];
      [congruence|].
    exfalso.
    assert (X : issued = l ++ ROLLBACK :: l').
    { unfold run, GET in W.
      destruct (seeding m c w) as [[u|e] w1] eqn:E; cbn [snd] in *.
      - exfalso. unfold run, GET in N. rewrite E in N. discriminate N.
      - assert (S : settle (snd (sql ROLLBACK w1))
                    = snd (let (o, w') :=
                             match sql ROLLBACK w1 with
                             | (Ok _, w2) => (Returned (Json_error e) 500, w2)
                             | (Throw e0, w2) => (Raised e0, w2)
                             end in (o, settle w')))
          by (destruct (sql ROLLBACK w1) as [[u|e'] w2]; reflexivity).
        rewrite <- S in W. unfold settle in W. rewrite flush_wire in W.
        simpl in W. rewrite sql_wire, sql_late, Wl, Ll, L in W.
        simpl in W. rewrite <- !app_assoc in W. apply app_inv_head in W.
        symmetry. exact W. }
    subst issued. apply in_app_iff in I.
    assert (I' : In CREATE_TABLE_customers (l ++ l')).
    { apply in_app_iff. destruct I as [I | [I | I]]; auto. discriminate I. }
    pose proof (climbs_bound _ _ _ _ 1 C I' eq_refl). lia. }
  split; [exact L1 | eapply run_restores_when_settled; eassumption].
Qed.

Lemma run_atomic_past_users_witness :
  late (snd (GET overlong prompt blank_world)) = [] /\
  data (pg (snd (run overlong prompt blank_world))) = data (pg blank_world).
Proof.
  eapply (run_atomic_past_users overlong prompt blank_world).
  - reflexivity.
  - reflexivity.
  - vm_compute. reflexivity.
  - vm_compute. reflexivity.
  - vm_compute. repeat (first [left; reflexivity | right]).
Defined.
